(** * Conway's Game of Life: the generation step of [main.py]

    A shallow embedding of [get_neighbour_set] and [next_board_state]
    and the properties of the sparse generation step.

    Python integers are unbounded, so a cell is a pair of [Z].  A Python
    [set] of cells is a [gset (Z * Z)]; the order in which a [for] loop
    walks a set is not fixed by the language, so the loops are run over
    an enumeration [iter] of the set that is a parameter of the model.
    [set.remove] raises [KeyError] on a missing element, which is the
    only exception the two functions can raise; it is threaded through
    an error monad. *)

From Equations Require Import Equations.
From stdpp Require Import gmap list list_numbers fin_sets strings.

#[local] Set Warnings "-clear-no-such-hyp".
Local Open Scope Z_scope.

(** ** Data model *)

Abbreviation cell := (Z * Z)%type.

(** Outcome of a Python call: a value, or the [KeyError] of [set.remove]. *)
Inductive result (A : Type) : Type :=
  | Ok (a : A)
  | KeyError.
Arguments Ok {A} a.
Arguments KeyError {A}.

#[global] Instance result_ret : MRet result := λ A a, Ok a.

#[global] Instance result_bind : MBind result := λ A B k m,
  match m with
  | Ok a => k a
  | KeyError => KeyError
  end.

(** [for x in xs: s = body(x, s)], stopping at the first exception. *)
Fixpoint for_each {A S : Type} (xs : list A) (body : A → S → result S) (s : S)
    : result S :=
  match xs with
  | [] => Ok s
  | x :: xs' => s' ← body x s; for_each xs' body s'
  end.

(** ** Python primitives *)

(** [range(start, stop)] *)
Definition range (start stop : Z) : list Z := seqZ start (stop - start).

(** [s.remove(x)]: raises [KeyError] when [x] is not in [s]. *)
Definition set_remove (s : gset cell) (x : cell) : result (gset cell) :=
  if decide (x ∈ s) then Ok (s ∖ {[x]}) else KeyError.

(** [s.add(x)] *)
Definition set_add (x : cell) (s : gset cell) : gset cell := {[x]} ∪ s.

(** ** [get_neighbour_set] *)

Definition get_neighbour_set (c : cell) (cell_range : Z) : result (gset cell) :=
  let '(cell_x, cell_y) := c in
  let neighbour_set : gset cell :=
    list_to_set
      (cprod
         ((λ modifier, cell_x + modifier) <$> range (- cell_range) (cell_range + 1))
         ((λ modifier, cell_y + modifier) <$> range (- cell_range) (cell_range + 1))) in
  set_remove neighbour_set c.

(** The default argument [cell_range = 1]. *)
Definition default_cell_range : Z := 1.

(** ** [next_board_state] *)

Section Engine.
(** The order in which a [for] loop enumerates a set. *)
Variable iter : gset cell → list cell.

(** Body of the inner loop, for one [neighbour_cell].  The membership
    test of the source guards a [pass], so both of its branches fall
    through to the neighbour count. *)
Definition neighbour_step (live_cells : gset cell) (neighbour_cell : cell)
    (next_cells : gset cell) : result (gset cell) :=
  let next_cells :=
    if decide (neighbour_cell ∈ live_cells ∨ neighbour_cell ∈ next_cells)
    then next_cells (* pass *)
    else next_cells in
  neighbour_neighbour_set ← get_neighbour_set neighbour_cell default_cell_range;
  Ok (if decide (size (neighbour_neighbour_set ∩ live_cells) = 3%nat)
      then set_add neighbour_cell next_cells
      else next_cells).

(** Body of the outer loop, for one [live_cell]. *)
Definition live_cell_step (live_cells : gset cell) (live_cell : cell)
    (next_cells : gset cell) : result (gset cell) :=
  neighbour_set ← get_neighbour_set live_cell default_cell_range;
  let next_cells :=
    if decide (size (neighbour_set ∩ live_cells) ∈ [2%nat; 3%nat])
    then set_add live_cell next_cells
    else next_cells in
  for_each (iter neighbour_set) (neighbour_step live_cells) next_cells.

Definition next_board_state (live_cells : gset cell) : result (gset cell) :=
  for_each (iter live_cells) (live_cell_step live_cells) ∅.

(** [n] successive calls, each on the result of the one before. *)
Fixpoint generations (n : nat) (live_cells : gset cell) : result (gset cell) :=
  match n with
  | O => Ok live_cells
  | S n' => next_cells ← next_board_state live_cells; generations n' next_cells
  end.
End Engine.

(** ** Specification vocabulary *)

(** An enumeration visits every element of the set, each exactly once. *)
Definition enumerates (iter : gset cell → list cell) : Prop :=
  ∀ s, iter s ≡ₚ elements s.

(** A second enumeration, opposite to [elements]. *)
Definition reversed (s : gset cell) : list cell := reverse (elements s).

(** Chebyshev (chessboard) distance between two cells. *)
Definition chebyshev (a b : cell) : Z :=
  Z.abs (a.1 - b.1) `max` Z.abs (a.2 - b.2).

(** The cells [(cx + dx, cy + dy)] with [dx], [dy] in [[-r, r]], centre
    excluded. *)
Definition offset_of (c : cell) (r : Z) (n : cell) : Prop :=
  ∃ dx dy : Z,
    (- r ≤ dx ≤ r) ∧ (- r ≤ dy ≤ r) ∧ (dx, dy) ≠ (0, 0) ∧
    n = (c.1 + dx, c.2 + dy).

(** Number of cells of [live] in the radius-1 Moore neighbourhood of [c]. *)
Definition moore_count (live : gset cell) (c : cell) : nat :=
  size (filter (λ n, chebyshev c n = 1) live).

(** The full [(2r+1) × (2r+1)] square around [c], centre included. *)
Definition square (c : cell) (r : Z) : gset cell :=
  list_to_set
    (cprod ((λ modifier, c.1 + modifier) <$> range (- r) (r + 1))
           ((λ modifier, c.2 + modifier) <$> range (- r) (r + 1))).

Definition neighbours (c : cell) : gset cell := square c 1 ∖ {[c]}.

(** The live cells together with the neighbourhoods of the live cells. *)
Definition candidates (live : gset cell) : gset cell :=
  live ∪ ⋃ (neighbours <$> elements live).

(** Translation of a pattern on the plane. *)
Definition translate (d : cell) (s : gset cell) : gset cell :=
  set_map (λ c : cell, (c.1 + d.1, c.2 + d.2)) s.

(** Reflection of a pattern in the diagonal [x = y]. *)
Definition transpose (s : gset cell) : gset cell := set_map prod_swap s.

(** Reflection of a pattern in the axis [x = 0]. *)
Definition mirror (s : gset cell) : gset cell :=
  set_map (λ c : cell, (- c.1, c.2)) s.

(** ** Patterns *)

Definition blinker_h : gset cell := {[ (0, 0); (1, 0); (2, 0) ]}.
Definition blinker_v : gset cell := {[ (1, -1); (1, 0); (1, 1) ]}.
Definition block : gset cell := {[ (0, 0); (1, 0); (0, 1); (1, 1) ]}.
Definition glider : gset cell := {[ (1, 0); (2, 1); (0, 2); (1, 2); (2, 2) ]}.
Definition diagonal_pair : gset cell := {[ (3, 3); (4, 4) ]}.

(** * The host loop

    The rest of [main.py] keeps the board as a grid of [Square] objects and
    drives [next_board_state] from it.  Drawing, logging and pacing do not
    touch that state and are left out; the size of the window, the events of
    [pygame.event.get()] and the position read by [pygame.mouse.get_pos()]
    come from the display and are inputs. *)

(** Exceptions of the host code: a list index out of range, a missing
    dictionary or set key, and the [SystemExit] of [sys.exit()]. *)
Inductive exception : Type :=
  | IndexError
  | MissingKey
  | SystemExit.

Inductive outcome (A : Type) : Type :=
  | Done (a : A)
  | Raise (e : exception).
Arguments Done {A} a.
Arguments Raise {A} e.

#[global] Instance outcome_ret : MRet outcome := λ A a, Done a.

#[global] Instance outcome_bind : MBind outcome := λ A B k m,
  match m with
  | Done a => k a
  | Raise e => Raise e
  end.

(** A call of the core from the host: its [KeyError] propagates. *)
Definition call {A : Type} (m : result A) : outcome A :=
  match m with
  | Ok a => Done a
  | KeyError => Raise MissingKey
  end.

Fixpoint host_for_each {A S : Type} (xs : list A) (body : A → S → outcome S)
    (s : S) : outcome S :=
  match xs with
  | [] => Done s
  | x :: xs' => s' ← body x s; host_for_each xs' body s'
  end.

Definition SQUARE_SIDE_LENGTH : Z := 15.

(** [class Square]: the pixel position of the top left corner, and the
    [alive] flag. *)
Record Square : Type := new_Square_with {
  Square_x : Z;
  Square_y : Z;
  alive : bool;
}.

(** [Square(x, y)] *)
Definition new_Square (x y : Z) : Square := new_Square_with x y false.

(** [square.alive = b] *)
Definition set_alive (b : bool) (square : Square) : Square :=
  new_Square_with (Square_x square) (Square_y square) b.


(** [SquareList.nodes]: a list of rows. *)
Abbreviation board := (list (list Square)).

(** [nodes[row][col]] as a partial function of the two positions. *)
Definition square_at (nodes : board) (row col : nat) : option Square :=
  nodes !! row ≫= (.!! col).

(** [len(l)] *)
Definition len {A : Type} (l : list A) : Z := Z.of_nat (length l).

(** The position [l[i]] denotes in a Python list of length [n]: negative
    indices count from the end, anything else out of range raises. *)
Definition list_index (n : Z) (i : Z) : outcome nat :=
  let j := if decide (i < 0) then i + n else i in
  if decide (0 ≤ j < n) then Done (Z.to_nat j) else Raise IndexError.

(** [l[i]] *)
Definition getitem {A : Type} (l : list A) (i : Z) : outcome A :=
  pos ← list_index (len l) i;
  match l !! pos with
  | Some a => Done a
  | None => Raise IndexError
  end.

(** The object [square_list[row][col]] evaluates to, as its place in the
    grid: a [Square] is shared by reference with the row that holds it. *)
Definition square_ref (nodes : board) (row col : Z) : outcome (nat * nat) :=
  row_pos ← list_index (len nodes) row;
  square_row ← getitem nodes row;
  col_pos ← list_index (len square_row) col;
  Done (row_pos, col_pos).

(** Assignment to [alive] through such a reference. *)
Definition update_alive (f : bool → bool) (ref : nat * nat) (nodes : board)
    : board :=
  alter (alter (λ square, set_alive (f (alive square)) square) ref.2) ref.1 nodes.

(** ** [SquareList.live_node_indexes]

    The property reads the live squares and clears them as it goes, so it
    returns the board as well as the set. *)

Definition collect_square (square : Square) (live_node_indexes : gset cell)
    : Square * gset cell :=
  if alive square
  then (set_alive false square,
        set_add (Square_x square / SQUARE_SIDE_LENGTH,
                 Square_y square / SQUARE_SIDE_LENGTH) live_node_indexes)
  else (square, live_node_indexes).

Fixpoint collect_row (square_row : list Square) (live_node_indexes : gset cell)
    : list Square * gset cell :=
  match square_row with
  | [] => ([], live_node_indexes)
  | square :: rest =>
      let '(square', live_node_indexes) := collect_square square live_node_indexes in
      let '(rest', live_node_indexes) := collect_row rest live_node_indexes in
      (square' :: rest', live_node_indexes)
  end.

Fixpoint collect_rows (nodes : board) (live_node_indexes : gset cell)
    : board * gset cell :=
  match nodes with
  | [] => ([], live_node_indexes)
  | square_row :: rest =>
      let '(square_row', live_node_indexes) := collect_row square_row live_node_indexes in
      let '(rest', live_node_indexes) := collect_rows rest live_node_indexes in
      (square_row' :: rest', live_node_indexes)
  end.

Definition live_node_indexes (nodes : board) : gset cell * board :=
  let '(nodes', live_node_indexes) := collect_rows nodes ∅ in
  (live_node_indexes, nodes').

(** ** [find_clicked_square] *)

Definition find_clicked_square (p : Z * Z) (nodes : board) : outcome (nat * nat) :=
  let '(x, y) := p in
  let col_num := x / SQUARE_SIDE_LENGTH in
  let row_num := y / SQUARE_SIDE_LENGTH in
  square_ref nodes row_num col_num.

(** ** The update of the board in [main] *)

(** Body of [for new_live_cell in new_live_cells]. *)
Definition revive (new_live_cell : cell) (nodes : board) : outcome board :=
  let '(new_live_cell_x, new_live_cell_y) := new_live_cell in
  if decide (new_live_cell_y ∈ range 0 (len nodes)) then
    square_row ← getitem nodes new_live_cell_y;
    if decide (new_live_cell_x ∈ range 0 (len square_row)) then
      square ← square_ref nodes new_live_cell_y new_live_cell_x;
      Done (update_alive (λ _, true) square nodes)
    else Done nodes
  else Done nodes.

(** The branch [if GLOBALS["RunAlg"]] of the main loop. *)
Definition advance (iter : gset cell → list cell) (nodes : board)
    : outcome board :=
  let '(live_cells, nodes) := live_node_indexes nodes in
  new_live_cells ← call (next_board_state iter live_cells);
  host_for_each (iter new_live_cells) revive nodes.

(** ** Events *)

Inductive key : Type := K_RETURN | K_BACKSPACE | K_ESCAPE | K_other.

#[global] Instance key_eq_dec : EqDecision key.
Proof. solve_decision. Defined.

(** An event of [pygame.event.get()]; a mouse click carries the position
    that [pygame.mouse.get_pos()] reports while it is handled. *)
Inductive event : Type :=
  | QUIT
  | MOUSEBUTTONDOWN (position : Z * Z)
  | KEYDOWN (k : key)
  | other_event.

(** [GLOBALS[name]] *)
Definition read_global (GLOBALS : gmap string bool) (name : string)
    : outcome bool :=
  match GLOBALS !! name with
  | Some b => Done b
  | None => Raise MissingKey
  end.

(** [terminate()] *)
Definition terminate {A : Type} : outcome A := Raise SystemExit.

Section Window.
(** Size of the window, taken from the display when the module loads. *)
Variables WINDOWWIDTH WINDOWHEIGHT : Z.

(** ** [SquareList.set_squares] *)

(** The inner [while x <= WINDOWWIDTH], appending to [nodes[row_num]];
    [col_num] is counted by the source but never read. *)
Equations? fill_row (y : Z) (row_num : nat) (x : Z) (nodes : board)
    : outcome board by wf (Z.to_nat (WINDOWWIDTH - x + 1)) lt :=
  fill_row y row_num x nodes with decide (x ≤ WINDOWWIDTH) := {
    | right _ := Done nodes
    | left _ with nodes !! row_num := {
        | None := Raise IndexError
        | Some square_row :=
            fill_row y row_num (x + SQUARE_SIDE_LENGTH)
              (<[row_num := square_row ++ [new_Square x y]]> nodes) } }.
Proof. unfold SQUARE_SIDE_LENGTH. lia. Qed.

(** The outer [while y <= WINDOWHEIGHT]. *)
Equations? fill_rows (y : Z) (row_num : nat) (nodes : board)
    : outcome board by wf (Z.to_nat (WINDOWHEIGHT - y + 1)) lt :=
  fill_rows y row_num nodes with decide (y ≤ WINDOWHEIGHT) := {
    | right _ := Done nodes
    | left _ with fill_row y row_num 0 (nodes ++ [[]]) := {
        | Raise e := Raise e
        | Done nodes' := fill_rows (y + SQUARE_SIDE_LENGTH) (S row_num) nodes' } }.
Proof. unfold SQUARE_SIDE_LENGTH. lia. Qed.

Definition set_squares : outcome board := fill_rows 0 0 [].

(** [SquareList()] and [SquareList.reset] both run [set_squares]. *)
Definition new_SquareList : outcome board := set_squares.
Definition reset : outcome board := set_squares.

(** ** [check_input] *)

(** Body of [for event in pygame.event.get()], on [GLOBALS] and the board. *)
Definition handle_event (ev : event) (st : gmap string bool * board)
    : outcome (gmap string bool * board) :=
  let '(GLOBALS, nodes) := st in
  match ev with
  | QUIT => terminate
  | MOUSEBUTTONDOWN position =>
      running ← read_global GLOBALS "RunAlg";
      if negb running then
        square ← find_clicked_square position nodes;
        Done (GLOBALS, update_alive negb square nodes)
      else Done (GLOBALS, nodes)
  | KEYDOWN k =>
      running ← read_global GLOBALS "RunAlg";
      st' ← (if negb running then
               if decide (k = K_RETURN) then
                 Done (<["RunAlg" := true]> GLOBALS, nodes)
               else if decide (k = K_BACKSPACE) then
                 nodes' ← reset;
                 Done (<["isFinished" := false]> GLOBALS, nodes')
               else Done (GLOBALS, nodes)
             else if decide (k ∈ [K_RETURN; K_BACKSPACE]) then
               Done (<["RunAlg" := false]> GLOBALS, nodes)
             else Done (GLOBALS, nodes));
      if decide (k = K_ESCAPE) then terminate else Done st'
  | other_event => Done (GLOBALS, nodes)
  end.

Definition check_input (events : list event) (st : gmap string bool * board)
    : outcome (gmap string bool * board) :=
  host_for_each events handle_event st.

(** ** One turn of the [while True] of [main] *)

Definition main_iteration (iter : gset cell → list cell) (events : list event)
    (st : gmap string bool * board) : outcome (gmap string bool * board) :=
  '(GLOBALS, nodes) ← check_input events st;
  running ← read_global GLOBALS "RunAlg";
  if (running : bool) then
    nodes' ← advance iter nodes;
    Done (GLOBALS, nodes')
  else Done (GLOBALS, nodes).
End Window.

(** The module's initial [GLOBALS]. *)
Definition initial_GLOBALS : gmap string bool := {[ "RunAlg" := false ]}.

(** [main], for as many turns of its [while True] as there are batches of
    events: the loop itself never ends other than by an exception. *)
Definition main (WINDOWWIDTH WINDOWHEIGHT : Z) (iter : gset cell → list cell)
    (turns : list (list event)) : outcome (gmap string bool * board) :=
  square_list ← new_SquareList WINDOWWIDTH WINDOWHEIGHT;
  host_for_each turns (main_iteration WINDOWWIDTH WINDOWHEIGHT iter)
    (initial_GLOBALS, square_list).

(** ** Vocabulary for the board *)

(** The squares the inner loop appends from column [from] on. *)
Definition row_squares (W y from : Z) : list Square :=
  (λ col, new_Square (SQUARE_SIDE_LENGTH * col) y)
    <$> seqZ from (W / SQUARE_SIDE_LENGTH + 1 - from).

(** The rows the outer loop appends from row [from] on. *)
Definition grid_rows (W H from : Z) : board :=
  (λ row, row_squares W (SQUARE_SIDE_LENGTH * row) 0)
    <$> seqZ from (H / SQUARE_SIDE_LENGTH + 1 - from).

(** The board of a window of [W] by [H] pixels with every square dead. *)
Definition grid (W H : Z) : board := grid_rows W H 0.

(** The board with every [alive] flag cleared. *)
Definition clear (nodes : board) : board :=
  (λ square_row : list Square, set_alive false <$> square_row) <$> nodes.

(** A board whose squares are those of the window, dead or alive. *)
Definition on_grid (W H : Z) (nodes : board) : Prop := clear nodes = grid W H.

(** The grid index [live_node_indexes] computes for a square. *)
Definition index_of (square : Square) : cell :=
  (Square_x square / SQUARE_SIDE_LENGTH, Square_y square / SQUARE_SIDE_LENGTH).


(** The cells that have a square in the window. *)
Definition in_viewport (W H : Z) (c : cell) : Prop :=
  (0 ≤ c.1 ∧ SQUARE_SIDE_LENGTH * c.1 ≤ W) ∧
  (0 ≤ c.2 ∧ SQUARE_SIDE_LENGTH * c.2 ≤ H).

(** The pixel of a click lies in the window. *)
Definition in_window (W H : Z) (ev : event) : Prop :=
  match ev with
  | MOUSEBUTTONDOWN (x, y) => (0 ≤ x ≤ W) ∧ (0 ≤ y ≤ H)
  | _ => True
  end.

(** The events that end the program. *)
Definition exits (ev : event) : Prop := ev = QUIT ∨ ev = KEYDOWN K_ESCAPE.


(** What the loop relies on between two turns. *)
Definition host_inv (W H : Z) (st : gmap string bool * board) : Prop :=
  is_Some (st.1 !! "RunAlg") ∧ on_grid W H st.2.

(** * Properties *)

(** ** The neighbourhood *)

Lemma get_neighbour_set_unfold c r :
  get_neighbour_set c r = set_remove (square c r) c.
Proof. by destruct c. Qed.

Lemma elem_of_range start stop k : k ∈ range start stop ↔ start ≤ k < stop.
Proof. unfold range. rewrite elem_of_seqZ. lia. Qed.

Lemma elem_of_shifted_range a r k :
  k ∈ (λ modifier, a + modifier) <$> range (- r) (r + 1) ↔ a - r ≤ k ≤ a + r.
Proof.
  rewrite list_elem_of_fmap. split.
  - intros (m & -> & Hm). apply elem_of_range in Hm. lia.
  - intros Hk. exists (k - a). split; [lia|]. apply elem_of_range. lia.
Qed.

Lemma elem_of_square c r n :
  n ∈ square c r ↔ (c.1 - r ≤ n.1 ≤ c.1 + r) ∧ (c.2 - r ≤ n.2 ≤ c.2 + r).
Proof.
  unfold square.
  by rewrite elem_of_list_to_set, list_elem_of_cprod, !elem_of_shifted_range.
Qed.

Lemma centre_in_square c r : c ∈ square c r ↔ 0 ≤ r.
Proof. rewrite elem_of_square. lia. Qed.

Lemma get_neighbour_set_nonneg c r :
  0 ≤ r → get_neighbour_set c r = Ok (square c r ∖ {[c]}).
Proof.
  intros Hr. rewrite get_neighbour_set_unfold. unfold set_remove.
  destruct (decide _) as [|Hc]; [done|]. by rewrite centre_in_square in Hc.
Qed.

Lemma get_neighbour_set_neg c r : r < 0 → get_neighbour_set c r = KeyError.
Proof.
  intros Hr. rewrite get_neighbour_set_unfold. unfold set_remove.
  destruct (decide _) as [Hc|]; [|done]. rewrite centre_in_square in Hc. lia.
Qed.

Lemma get_neighbour_set_default c :
  get_neighbour_set c default_cell_range = Ok (neighbours c).
Proof. by apply get_neighbour_set_nonneg. Qed.

Lemma elem_of_neighbours c n : n ∈ neighbours c ↔ chebyshev c n = 1.
Proof.
  unfold neighbours, chebyshev.
  rewrite elem_of_difference, elem_of_square, not_elem_of_singleton.
  destruct c as [cx cy], n as [nx ny]; simpl. split.
  - intros [? Hne].
    assert (nx ≠ cx ∨ ny ≠ cy) by (destruct (decide (nx = cx)); [right|left]; congruence).
    lia.
  - intros ?. split; [lia|]. intros [= -> ->]. lia.
Qed.

Lemma neighbours_sym c n : n ∈ neighbours c ↔ c ∈ neighbours n.
Proof. rewrite !elem_of_neighbours. unfold chebyshev. lia. Qed.

Lemma size_neighbours_inter live c :
  size (neighbours c ∩ live) = moore_count live c.
Proof.
  unfold moore_count. f_equal. apply set_eq. intros n.
  rewrite elem_of_intersection, elem_of_filter, elem_of_neighbours. done.
Qed.

(** ** The two loops *)

Lemma neighbour_step_eq live n acc :
  neighbour_step live n acc =
    Ok (if decide (moore_count live n = 3%nat) then set_add n acc else acc).
Proof.
  unfold neighbour_step. rewrite get_neighbour_set_default. simpl.
  rewrite size_neighbours_inter. by destruct (decide (_ ∨ _)).
Qed.

(** The inner loop adds exactly the visited cells that have three live
    neighbours. *)
Lemma inner_loop live ns acc :
  ∃ out, for_each ns (neighbour_step live) acc = Ok out ∧
    ∀ c, c ∈ out ↔ c ∈ acc ∨ (c ∈ ns ∧ moore_count live c = 3%nat).
Proof.
  revert acc. induction ns as [|n ns IH]; intros acc; simpl.
  - exists acc. split; [done|]. intros c. rewrite elem_of_nil. tauto.
  - rewrite neighbour_step_eq. simpl.
    destruct (IH (if decide (moore_count live n = 3%nat)
                  then set_add n acc else acc)) as (out & -> & Hout).
    exists out. split; [done|]. intros c. rewrite Hout, elem_of_cons.
    unfold set_add. destruct (decide _) as [Hn|Hn].
    + rewrite elem_of_union, elem_of_singleton.
      intuition (subst; auto).
    + intuition (subst; auto). contradiction.
Qed.

Section Loops.
Variable iter : gset cell → list cell.
Hypothesis iter_elem : ∀ s x, x ∈ iter s ↔ x ∈ s.

Lemma live_cell_step_spec live l acc :
  ∃ out, live_cell_step iter live l acc = Ok out ∧
    ∀ c, c ∈ out ↔
      c ∈ acc ∨
      (c = l ∧ moore_count live l ∈ [2%nat; 3%nat]) ∨
      (c ∈ neighbours l ∧ moore_count live c = 3%nat).
Proof.
  unfold live_cell_step. rewrite get_neighbour_set_default. simpl.
  rewrite size_neighbours_inter.
  edestruct inner_loop as (out & -> & Hout).
  exists out. split; [done|]. intros c. rewrite Hout, iter_elem.
  unfold set_add. destruct (decide _) as [Hl|Hl].
  - rewrite elem_of_union, elem_of_singleton. naive_solver.
  - naive_solver.
Qed.

Lemma outer_loop live ls acc :
  ∃ out, for_each ls (live_cell_step iter live) acc = Ok out ∧
    ∀ c, c ∈ out ↔
      c ∈ acc ∨
      (c ∈ ls ∧ moore_count live c ∈ [2%nat; 3%nat]) ∨
      (∃ l, l ∈ ls ∧ c ∈ neighbours l ∧ moore_count live c = 3%nat).
Proof.
  revert acc. induction ls as [|l ls IH]; intros acc; simpl.
  - exists acc. split; [done|]. intros c. split; [tauto|].
    intros [?|[[H _]|(l & H & _)]]; [done| |]; by apply elem_of_nil in H.
  - destruct (live_cell_step_spec live l acc) as (mid & -> & Hmid). simpl.
    destruct (IH mid) as (out & -> & Hout).
    exists out. split; [done|]. intros c. rewrite Hout, Hmid.
    setoid_rewrite elem_of_cons. naive_solver.
Qed.

(** What one call computes, as the loops build it. *)
Lemma next_board_state_loops live :
  ∃ out, next_board_state iter live = Ok out ∧
    ∀ c, c ∈ out ↔
      (c ∈ live ∧ moore_count live c ∈ [2%nat; 3%nat]) ∨
      (∃ l, l ∈ live ∧ c ∈ neighbours l ∧ moore_count live c = 3%nat).
Proof.
  unfold next_board_state.
  destruct (outer_loop live (iter live) ∅) as (out & -> & Hout).
  exists out. split; [done|]. intros c. rewrite Hout.
  setoid_rewrite iter_elem. set_solver.
Qed.
End Loops.

Lemma enumerates_elem iter : enumerates iter → ∀ s x, x ∈ iter s ↔ x ∈ s.
Proof. intros Hiter s x. by rewrite (Hiter s), elem_of_elements. Qed.

Lemma enumerates_elements : enumerates elements.
Proof. by intros s. Qed.

(** A cell with a positive count has a live neighbour. *)
Lemma moore_count_pos live c :
  (0 < moore_count live c)%nat → ∃ l, l ∈ live ∧ c ∈ neighbours l.
Proof.
  unfold moore_count. intros Hpos.
  destruct (size_pos_elem_of (filter (λ n, chebyshev c n = 1) live)) as [l Hl];
    [lia|].
  apply elem_of_filter in Hl as [Hd Hl]. exists l. split; [done|].
  by rewrite <- neighbours_sym, elem_of_neighbours.
Qed.

(** ** Independence from the enumeration order *)

Lemma for_each_total {A S : Type} (body : A → S → result S) :
  (∀ x s, ∃ s', body x s = Ok s') →
  ∀ xs s, ∃ s', for_each xs body s = Ok s'.
Proof.
  intros Hbody xs. induction xs as [|x xs IH]; intros s; simpl; [by eexists|].
  destruct (Hbody x s) as [s' ->]. apply IH.
Qed.

Lemma neighbour_step_total live n acc :
  ∃ out, neighbour_step live n acc = Ok out.
Proof. rewrite neighbour_step_eq. by eexists. Qed.

Lemma live_cell_step_total iter live l acc :
  ∃ out, live_cell_step iter live l acc = Ok out.
Proof.
  unfold live_cell_step. rewrite get_neighbour_set_default. simpl.
  apply for_each_total. intros. apply neighbour_step_total.
Qed.

Lemma next_board_state_order iter1 iter2 live :
  (∀ s x, x ∈ iter1 s ↔ x ∈ s) → (∀ s x, x ∈ iter2 s ↔ x ∈ s) →
  next_board_state iter1 live = next_board_state iter2 live.
Proof.
  intros H1 H2.
  destruct (next_board_state_loops iter1 H1 live) as (out1 & -> & Hout1).
  destruct (next_board_state_loops iter2 H2 live) as (out2 & -> & Hout2).
  f_equal. apply set_eq. intros c. by rewrite Hout1, Hout2.
Qed.

Lemma generations_order iter1 iter2 n live :
  (∀ s x, x ∈ iter1 s ↔ x ∈ s) → (∀ s x, x ∈ iter2 s ↔ x ∈ s) →
  generations iter1 n live = generations iter2 n live.
Proof.
  intros H1 H2. revert live. induction n as [|n IH]; intros live; simpl; [done|].
  rewrite (next_board_state_order iter1 iter2 live H1 H2).
  destruct (next_board_state iter2 live); simpl; [apply IH|done].
Qed.

(** Any enumeration agrees with the sorted one, which can be run. *)
Lemma next_board_state_elements iter live :
  enumerates iter → next_board_state iter live = next_board_state elements live.
Proof.
  intros Hiter. apply next_board_state_order; apply enumerates_elem;
    [done|apply enumerates_elements].
Qed.

Lemma generations_elements iter n live :
  enumerates iter → generations iter n live = generations elements n live.
Proof.
  intros Hiter. apply generations_order; apply enumerates_elem;
    [done|apply enumerates_elements].
Qed.

(** ** Counting the square *)

Lemma NoDup_cprod {A B : Type} (l : list A) (k : list B) :
  NoDup l → NoDup k → NoDup (cprod l k).
Proof.
  intros Hl Hk. induction Hl as [|x l Hx Hl IH]; [constructor|].
  change (NoDup (((x ,.) <$> k) ++ cprod l k)).
  apply NoDup_app. split_and!; [|intros [a b]|done].
  - apply (NoDup_fmap_2 _), Hk.
  - rewrite list_elem_of_fmap, list_elem_of_cprod. intros (y & [= -> ->] & _).
    simpl. tauto.
Qed.

Lemma length_cprod {A B : Type} (l : list A) (k : list B) :
  length (cprod l k) = (length l * length k)%nat.
Proof. rewrite list_cprod_list_prod. apply length_prod. Qed.

Lemma NoDup_shifted_range a r :
  NoDup ((λ modifier, a + modifier) <$> range (- r) (r + 1)).
Proof.
  assert (Inj (=) (=) (λ modifier, a + modifier)) by (intros x y ?; lia).
  apply (NoDup_fmap_2 _), NoDup_seqZ.
Qed.

Lemma length_shifted_range a r :
  length ((λ modifier, a + modifier) <$> range (- r) (r + 1)) = Z.to_nat (2 * r + 1).
Proof. unfold range. rewrite length_fmap, length_seqZ. f_equal. lia. Qed.

Lemma size_square c r :
  size (square c r) = (Z.to_nat (2 * r + 1) * Z.to_nat (2 * r + 1))%nat.
Proof.
  unfold square. rewrite size_list_to_set.
  - by rewrite length_cprod, !length_shifted_range.
  - apply NoDup_cprod; apply NoDup_shifted_range.
Qed.

Lemma size_square_without_centre c r :
  0 ≤ r → Z.of_nat (size (square c r ∖ {[c]})) = (2 * r + 1) ^ 2 - 1.
Proof.
  intros Hr. rewrite size_difference.
  - rewrite size_square, size_singleton. nia.
  - apply singleton_subseteq_l. by apply centre_in_square.
Qed.

Lemma elem_of_square_without_centre c r n :
  n ∈ square c r ∖ {[c]} ↔ offset_of c r n.
Proof.
  rewrite elem_of_difference, elem_of_square, not_elem_of_singleton.
  destruct c as [cx cy], n as [nx ny]. unfold offset_of. simpl. split.
  - intros [? Hne]. exists (nx - cx), (ny - cy).
    split; [lia|]. split; [lia|]. split; [|f_equal; lia].
    intros [= ? ?]. apply Hne. f_equal; lia.
  - intros (dx & dy & ? & ? & Hne & [= -> ->]). split; [lia|].
    intros [= ? ?]. apply Hne. f_equal; lia.
Qed.

Lemma elem_of_candidates live c :
  c ∈ candidates live ↔ c ∈ live ∨ ∃ l, l ∈ live ∧ c ∈ neighbours l.
Proof.
  unfold candidates. rewrite elem_of_union, elem_of_union_list.
  setoid_rewrite list_elem_of_fmap. setoid_rewrite elem_of_elements.
  naive_solver.
Qed.

(** * The generation step *)

(** C1.  One call keeps exactly the live cells that have two or three live
    cells in their Moore neighbourhood and adds exactly the dead cells that
    have three. *)
Theorem next_board_state_rules iter live :
  enumerates iter →
  ∃ out, next_board_state iter live = Ok out ∧
    ∀ c, c ∈ out ↔
      ((c ∈ live ∧ (moore_count live c = 2%nat ∨ moore_count live c = 3%nat)) ∨
       ((c ∉ live) ∧ moore_count live c = 3%nat)).
Proof.
  intros Hiter.
  destruct (next_board_state_loops iter (enumerates_elem iter Hiter) live)
    as (out & Hrun & Hout).
  exists out. split; [done|]. intros c. rewrite Hout.
  rewrite elem_of_cons, list_elem_of_singleton. split.
  - intros [?|(l & _ & _ & H3)]; [by left|].
    destruct (decide (c ∈ live)); [left|right]; auto.
  - intros [?|[Hdead H3]]; [by left|]. right.
    destruct (moore_count_pos live c) as (l & ? & ?); [lia|]. by exists l.
Qed.

Lemma next_board_state_rules_witness :
  enumerates elements ∧
  ∃ out, next_board_state elements blinker_h = Ok out ∧
    ∀ c, c ∈ out ↔
      ((c ∈ blinker_h ∧
          (moore_count blinker_h c = 2%nat ∨ moore_count blinker_h c = 3%nat)) ∨
       ((c ∉ blinker_h) ∧ moore_count blinker_h c = 3%nat)).
Proof.
  split; [intros s; reflexivity|].
  apply (next_board_state_rules elements blinker_h). intros s; reflexivity.
Defined.

(** C2.  For a radius of at least one, [get_neighbour_set] returns the cells
    at the offsets [(dx, dy)] of [[-radius, radius]²] other than [(0, 0)],
    and there are [(2·radius + 1)² - 1] of them. *)
Theorem get_neighbour_set_spec c radius :
  1 ≤ radius →
  ∃ s, get_neighbour_set c radius = Ok s ∧
    (∀ n, n ∈ s ↔ offset_of c radius n) ∧
    Z.of_nat (size s) = (2 * radius + 1) ^ 2 - 1.
Proof.
  intros Hr. exists (square c radius ∖ {[c]}). split_and!.
  - apply get_neighbour_set_nonneg. lia.
  - apply elem_of_square_without_centre.
  - apply size_square_without_centre. lia.
Qed.

Lemma get_neighbour_set_spec_witness :
  1 ≤ 2 ∧
  ∃ s, get_neighbour_set (3, -4) 2 = Ok s ∧
    (∀ n, n ∈ s ↔ offset_of (3, -4) 2 n) ∧
    Z.of_nat (size s) = (2 * 2 + 1) ^ 2 - 1.
Proof. split; [lia|]. apply (get_neighbour_set_spec (3, -4) 2). lia. Defined.

(** C3, as the code has it.  The call fails exactly for a negative radius,
    where [set.remove] finds no centre to remove; a radius of zero gives the
    empty set. *)
Theorem get_neighbour_set_fails_iff c radius :
  (get_neighbour_set c radius = KeyError ↔ radius < 0) ∧
  get_neighbour_set c 0 = Ok ∅.
Proof.
  split; [split|].
  - intros Hfail. destruct (decide (radius < 0)) as [|Hr]; [done|].
    rewrite get_neighbour_set_nonneg in Hfail by lia. done.
  - apply get_neighbour_set_neg.
  - rewrite get_neighbour_set_nonneg by done. f_equal. apply set_eq. intros n.
    rewrite elem_of_square_without_centre. unfold offset_of. split.
    + intros (dx & dy & ? & ? & Hne & _). destruct Hne. f_equal; lia.
    + set_solver.
Qed.

(** C3, counterexample.  Radius zero is below one and the call returns. *)
Lemma get_neighbour_set_radius_zero :
  get_neighbour_set (5, 5) 0 = Ok ∅ ∧
  ¬ (∀ c radius, radius < 1 → get_neighbour_set c radius = KeyError).
Proof.
  assert (get_neighbour_set (5, 5) 0 = Ok ∅) as Hrun by (by vm_compute).
  split; [done|]. intros Hfail. specialize (Hfail (5, 5) 0).
  rewrite Hrun in Hfail. by specialize (Hfail eq_refl).
Qed.

(** C4.  The call returns a set for every set of cells, whatever their
    coordinates and whatever the order of enumeration: the only exception in
    reach is the [KeyError] of [get_neighbour_set], which the default range
    never raises. *)
Theorem next_board_state_total iter live :
  ∃ out, next_board_state iter live = Ok out.
Proof.
  unfold next_board_state. apply for_each_total. intros l acc.
  apply live_cell_step_total.
Qed.

(** C5.  The blinker: the horizontal triple becomes the vertical one, and
    the vertical one becomes the horizontal one again. *)
Theorem blinker_period_two iter :
  enumerates iter →
  next_board_state iter blinker_h = Ok blinker_v ∧
  (next_cells ← next_board_state iter blinker_h;
   next_board_state iter next_cells) = Ok blinker_h.
Proof.
  intros Hiter. rewrite (next_board_state_elements iter blinker_h Hiter).
  assert (next_board_state elements blinker_h = Ok blinker_v) as ->
    by (by vm_compute).
  split; [done|]. simpl.
  rewrite (next_board_state_elements iter blinker_v Hiter). by vm_compute.
Qed.

Lemma blinker_period_two_witness :
  enumerates elements ∧
  next_board_state elements blinker_h = Ok blinker_v ∧
  (next_cells ← next_board_state elements blinker_h;
   next_board_state elements next_cells) = Ok blinker_h.
Proof.
  split; [intros s; reflexivity|].
  apply (blinker_period_two elements). intros s; reflexivity.
Defined.

(** C6.  The two-by-two block is a fixed point. *)
Theorem block_still_life iter :
  enumerates iter → next_board_state iter block = Ok block.
Proof.
  intros Hiter. rewrite (next_board_state_elements iter block Hiter).
  by vm_compute.
Qed.

Lemma block_still_life_witness :
  enumerates elements ∧ next_board_state elements block = Ok block.
Proof.
  split; [intros s; reflexivity|].
  apply (block_still_life elements). intros s; reflexivity.
Defined.

(** C7.  Four calls move the glider one cell along each axis. *)
Theorem glider_translation iter :
  enumerates iter → generations iter 4 glider = Ok (translate (1, 1) glider).
Proof.
  intros Hiter. rewrite (generations_elements iter 4 glider Hiter).
  by vm_compute.
Qed.

Lemma glider_translation_witness :
  enumerates elements ∧
  generations elements 4 glider = Ok (translate (1, 1) glider).
Proof.
  split; [intros s; reflexivity|].
  apply (glider_translation elements). intros s; reflexivity.
Defined.

(** C8.  Two runs on sets with the same members return sets with the same
    members, whatever order each run enumerates its sets in. *)
Theorem next_board_state_order_independent iter1 iter2 live1 live2 :
  enumerates iter1 → enumerates iter2 →
  (∀ c, c ∈ live1 ↔ c ∈ live2) →
  ∃ out1 out2,
    next_board_state iter1 live1 = Ok out1 ∧
    next_board_state iter2 live2 = Ok out2 ∧
    ∀ c, c ∈ out1 ↔ c ∈ out2.
Proof.
  intros H1 H2 Hsame. apply set_eq in Hsame as <-.
  destruct (next_board_state_loops iter1 (enumerates_elem iter1 H1) live1)
    as (out & Hout & _).
  exists out, out. split_and!; [done| |done].
  rewrite <- Hout. apply next_board_state_order; by apply enumerates_elem.
Qed.

Lemma next_board_state_order_independent_witness :
  enumerates elements ∧ enumerates reversed ∧
  (∀ c, c ∈ blinker_h ↔ c ∈ ({[ (2, 0); (1, 0); (0, 0) ]} : gset cell)) ∧
  ∃ out1 out2,
    next_board_state elements blinker_h = Ok out1 ∧
    next_board_state reversed {[ (2, 0); (1, 0); (0, 0) ]} = Ok out2 ∧
    ∀ c, c ∈ out1 ↔ c ∈ out2.
Proof.
  assert (enumerates elements) as H1 by (intros s; reflexivity).
  assert (enumerates reversed) as H2 by (intros s; apply reverse_Permutation).
  assert (∀ c, c ∈ blinker_h ↔ c ∈ ({[ (2, 0); (1, 0); (0, 0) ]} : gset cell))
    as Hsame by (intros c; unfold blinker_h; set_solver).
  split_and!; [done..|].
  by apply (next_board_state_order_independent elements reversed).
Defined.

(** C9.  Nothing is born from the empty set. *)
Theorem next_board_state_empty iter :
  enumerates iter → next_board_state iter ∅ = Ok ∅.
Proof.
  intros Hiter. unfold next_board_state.
  specialize (Hiter ∅). rewrite elements_empty in Hiter.
  by apply Permutation_nil_r in Hiter as ->.
Qed.

Lemma next_board_state_empty_witness :
  enumerates elements ∧ next_board_state elements ∅ = Ok ∅.
Proof.
  split; [intros s; reflexivity|].
  apply (next_board_state_empty elements). intros s; reflexivity.
Defined.

(** C10.  Every cell of the result is live already or at Chebyshev distance
    one of a live cell: the result lies within the live cells and their
    neighbourhoods. *)
Theorem next_board_state_local iter live :
  enumerates iter →
  ∃ out, next_board_state iter live = Ok out ∧
    (∀ c, c ∈ out → c ∈ live ∨ ∃ l, l ∈ live ∧ chebyshev l c ≤ 1) ∧
    out ⊆ candidates live.
Proof.
  intros Hiter.
  destruct (next_board_state_loops iter (enumerates_elem iter Hiter) live)
    as (out & Hrun & Hout).
  exists out. split; [done|].
  assert (∀ c, c ∈ out → c ∈ live ∨ ∃ l, l ∈ live ∧ c ∈ neighbours l) as Hloc.
  { intros c [[? _]|(l & ? & ? & _)]%Hout; [by left|right; by exists l]. }
  split.
  - intros c [?|(l & ? & Hl)]%Hloc; [by left|right]. exists l. split; [done|].
    apply elem_of_neighbours in Hl. lia.
  - intros c Hc. apply elem_of_candidates. auto.
Qed.

Lemma next_board_state_local_witness :
  enumerates elements ∧
  ∃ out, next_board_state elements glider = Ok out ∧
    (∀ c, c ∈ out → c ∈ glider ∨ ∃ l, l ∈ glider ∧ chebyshev l c ≤ 1) ∧
    out ⊆ candidates glider.
Proof.
  split; [intros s; reflexivity|].
  apply (next_board_state_local elements glider). intros s; reflexivity.
Defined.

(** ** Further runs *)

(** A lone cell dies, far from the origin as well. *)
Example isolated_cell_dies :
  next_board_state elements {[ (5, 5) ]} = Ok ∅ ∧
  next_board_state reversed {[ (-1000000007, 2 ^ 70) ]} = Ok ∅.
Proof. split; by vm_compute. Qed.

(** The opposite enumeration order computes the same glider step. *)
Example glider_step_both_orders :
  next_board_state elements glider = next_board_state reversed glider.
Proof. by vm_compute. Qed.

(** A negative range leaves nothing for [set.remove] to remove. *)
Example get_neighbour_set_negative_range :
  get_neighbour_set (0, 0) (-1) = KeyError.
Proof. by vm_compute. Qed.

(** * Further properties of the generation step *)

(** The birth and survival rules, in the form the later proofs share. *)
Lemma next_board_state_membership iter live :
  enumerates iter →
  ∃ out, next_board_state iter live = Ok out ∧
    ∀ c, c ∈ out ↔
      moore_count live c = 3%nat ∨ (c ∈ live ∧ moore_count live c = 2%nat).
Proof.
  intros Hiter.
  destruct (next_board_state_loops iter (enumerates_elem iter Hiter) live)
    as (out & Hrun & Hout).
  exists out. split; [done|]. intros c. rewrite Hout.
  rewrite elem_of_cons, list_elem_of_singleton. split.
  - intros [[? [?|?]]|(l & _ & _ & ?)]; auto.
  - intros [H3|[? ?]]; [|by auto].
    destruct (decide (c ∈ live)); [by auto|]. right.
    destruct (moore_count_pos live c) as (l & ? & ?); [lia|]. by exists l.
Qed.

Lemma size_set_map_inj (f : cell → cell) (s : gset cell) :
  Inj (=) (=) f → size (set_map f s : gset cell) = size s.
Proof.
  intros Hf. unfold set_map. rewrite size_list_to_set.
  - by rewrite length_fmap.
  - apply (NoDup_fmap_2 _), NoDup_elements.
Qed.

Lemma moore_count_le live c : (moore_count live c ≤ size live)%nat.
Proof. unfold moore_count. apply subseteq_size. set_solver. Qed.

Lemma moore_count_live live c :
  c ∈ live → (moore_count live c < size live)%nat.
Proof.
  intros Hc. unfold moore_count. apply subset_size. split; [set_solver|].
  intros Hsub. specialize (Hsub c Hc). apply elem_of_filter in Hsub as [Hd _].
  unfold chebyshev in Hd. lia.
Qed.

Section Isometry.
(** A bijection of the plane that keeps Chebyshev distances. *)
Variables f g : cell → cell.
Hypothesis gf : ∀ c, g (f c) = c.
Hypothesis fg : ∀ c, f (g c) = c.
Hypothesis f_dist : ∀ a b, chebyshev (f a) (f b) = chebyshev a b.

Lemma isometry_inj : Inj (=) (=) f.
Proof. intros a b Hab. by rewrite <- (gf a), Hab, gf. Qed.

Lemma elem_of_image (live : gset cell) c :
  c ∈ (set_map f live : gset cell) ↔ g c ∈ live.
Proof.
  rewrite elem_of_map. split.
  - intros (a & -> & ?). by rewrite gf.
  - intros ?. exists (g c). by rewrite fg.
Qed.

Lemma moore_count_image (live : gset cell) c :
  moore_count (set_map f live) c = moore_count live (g c).
Proof.
  unfold moore_count.
  rewrite <- (size_set_map_inj f (filter (λ n, chebyshev (g c) n = 1) live)
                isometry_inj).
  f_equal. apply set_eq. intros n.
  rewrite elem_of_filter, elem_of_image, elem_of_map. split.
  - intros [Hd ?]. exists (g n). rewrite fg, elem_of_filter.
    split_and!; [done| |done]. by rewrite <- f_dist, !fg.
  - intros (a & -> & [Hd ?]%elem_of_filter). rewrite gf.
    split; [|done]. by rewrite <- (fg c), f_dist.
Qed.

Lemma next_board_state_image iter live :
  enumerates iter →
  ∃ out, next_board_state iter live = Ok out ∧
    next_board_state iter (set_map f live) = Ok (set_map f out).
Proof.
  intros Hiter.
  destruct (next_board_state_membership iter live Hiter) as (out & Hrun & Hout).
  destruct (next_board_state_membership iter (set_map f live) Hiter)
    as (out' & Hrun' & Hout').
  exists out. split; [done|]. rewrite Hrun'. f_equal. apply set_eq. intros c.
  by rewrite Hout', !elem_of_image, Hout, moore_count_image.
Qed.
End Isometry.

(** Reflection in the diagonal, and in the vertical axis. *)
Lemma chebyshev_swap a b : chebyshev (prod_swap a) (prod_swap b) = chebyshev a b.
Proof. unfold chebyshev. destruct a, b. simpl. lia. Qed.

Lemma chebyshev_shift d a b :
  chebyshev (a.1 + d.1, a.2 + d.2) (b.1 + d.1, b.2 + d.2) = chebyshev a b.
Proof. unfold chebyshev. simpl. f_equal; f_equal; lia. Qed.

Lemma chebyshev_mirror a b :
  chebyshev (- a.1, a.2) (- b.1, b.2) = chebyshev a b.
Proof. unfold chebyshev. simpl. lia. Qed.

(** X1.  The step commutes with translations of the plane: a shifted
    pattern evolves into the shifted result. *)
Theorem next_board_state_translate iter d live :
  enumerates iter →
  ∃ out, next_board_state iter live = Ok out ∧
    next_board_state iter (translate d live) = Ok (translate d out).
Proof.
  intros Hiter.
  apply (next_board_state_image _ (λ c : cell, (c.1 - d.1, c.2 - d.2)));
    [| |intros a b; apply chebyshev_shift|done];
    intros [x y]; simpl; f_equal; lia.
Qed.

Lemma next_board_state_translate_witness :
  enumerates elements ∧
  ∃ out, next_board_state elements block = Ok out ∧
    next_board_state elements (translate (-7, 40) block)
      = Ok (translate (-7, 40) out).
Proof.
  split; [intros s; reflexivity|].
  apply (next_board_state_translate elements (-7, 40) block).
  intros s; reflexivity.
Defined.

(** X2.  The step commutes with the reflections of the grid, in the diagonal
    and in an axis, which generate all its rotations and reflections. *)
Theorem next_board_state_reflect iter live :
  enumerates iter →
  ∃ out, next_board_state iter live = Ok out ∧
    next_board_state iter (transpose live) = Ok (transpose out) ∧
    next_board_state iter (mirror live) = Ok (mirror out).
Proof.
  intros Hiter.
  destruct (next_board_state_image prod_swap prod_swap) with iter live
    as (out & Hrun & Hswap); [by intros []|by intros []|apply chebyshev_swap|done|].
  destruct (next_board_state_image (λ c : cell, (- c.1, c.2))
              (λ c : cell, (- c.1, c.2))) with iter live
    as (out' & Hrun' & Hmirror);
    [intros [x y]; simpl; f_equal; lia..|apply chebyshev_mirror|done|].
  exists out. split_and!; [done..|].
  rewrite Hrun in Hrun'. by injection Hrun' as <-.
Qed.

Lemma next_board_state_reflect_witness :
  enumerates elements ∧
  ∃ out, next_board_state elements glider = Ok out ∧
    next_board_state elements (transpose glider) = Ok (transpose out) ∧
    next_board_state elements (mirror glider) = Ok (mirror out).
Proof.
  split; [intros s; reflexivity|].
  apply (next_board_state_reflect elements glider). intros s; reflexivity.
Defined.

(** X3.  A population of at most two cells is extinct after one step: no
    cell of it has two live neighbours and no cell at all has three. *)
Theorem next_board_state_small_dies iter live :
  enumerates iter → (size live ≤ 2)%nat → next_board_state iter live = Ok ∅.
Proof.
  intros Hiter Hsize.
  destruct (next_board_state_membership iter live Hiter) as (out & -> & Hout).
  f_equal. apply set_eq. intros c. rewrite Hout. split; [|set_solver].
  pose proof (moore_count_le live c).
  intros [?|[Hc ?]]; [lia|]. apply moore_count_live in Hc. lia.
Qed.

Lemma next_board_state_small_dies_witness :
  enumerates elements ∧ (size diagonal_pair ≤ 2)%nat ∧
  next_board_state elements diagonal_pair = Ok ∅.
Proof.
  assert (enumerates elements) as Hiter by (intros s; reflexivity).
  assert (size diagonal_pair ≤ 2)%nat as Hsize by (vm_compute; lia).
  split_and!; [done..|].
  exact (next_board_state_small_dies elements diagonal_pair Hiter Hsize).
Defined.

(** X4.  The fate of a cell depends only on the three by three square
    around it: two populations that agree there agree on the cell after
    the step. *)
Theorem next_board_state_depends_on_square iter live1 live2 c :
  enumerates iter →
  live1 ∩ square c 1 = live2 ∩ square c 1 →
  ∃ out1 out2,
    next_board_state iter live1 = Ok out1 ∧
    next_board_state iter live2 = Ok out2 ∧
    (c ∈ out1 ↔ c ∈ out2).
Proof.
  intros Hiter Hsame.
  destruct (next_board_state_membership iter live1 Hiter) as (out1 & ? & Hout1).
  destruct (next_board_state_membership iter live2 Hiter) as (out2 & ? & Hout2).
  exists out1, out2. split_and!; [done..|].
  assert (∀ n, n ∈ square c 1 → n ∈ live1 ↔ n ∈ live2) as Hin.
  { intros n Hn. split; intros Hl.
    - assert (n ∈ live1 ∩ square c 1) as Hx by set_solver.
      rewrite Hsame in Hx. set_solver.
    - assert (n ∈ live2 ∩ square c 1) as Hx by set_solver.
      rewrite <- Hsame in Hx. set_solver. }
  assert (moore_count live1 c = moore_count live2 c) as Hcount.
  { unfold moore_count. f_equal. apply set_eq. intros n.
    rewrite !elem_of_filter. split; intros [Hd ?]; (split; [done|]);
      apply Hin; try done; apply elem_of_neighbours in Hd;
      unfold neighbours in Hd; set_solver. }
  rewrite Hout1, Hout2, Hcount, (Hin c); [done|].
  apply centre_in_square. lia.
Qed.

Lemma next_board_state_depends_on_square_witness :
  enumerates elements ∧
  blinker_h ∩ square (1, 0) 1 = ({[ (9, 9) ]} ∪ blinker_h) ∩ square (1, 0) 1 ∧
  ∃ out1 out2,
    next_board_state elements blinker_h = Ok out1 ∧
    next_board_state elements ({[ (9, 9) ]} ∪ blinker_h) = Ok out2 ∧
    ((1, 0) ∈ out1 ↔ (1, 0) ∈ out2).
Proof.
  assert (enumerates elements) as Hiter by (intros s; reflexivity).
  assert (blinker_h ∩ square (1, 0) 1
          = ({[ (9, 9) ]} ∪ blinker_h) ∩ square (1, 0) 1) as Hsame
    by (vm_compute; reflexivity).
  split_and!; [done..|].
  exact (next_board_state_depends_on_square elements _ _ (1, 0) Hiter Hsame).
Defined.

(** X5.  At any range that does not fail, neighbourhood is symmetric: [n]
    is a neighbour of [c] exactly when [c] is a neighbour of [n]. *)
Theorem get_neighbour_set_symmetric c n cell_range :
  0 ≤ cell_range →
  ∃ of_c of_n,
    get_neighbour_set c cell_range = Ok of_c ∧
    get_neighbour_set n cell_range = Ok of_n ∧
    (n ∈ of_c ↔ c ∈ of_n).
Proof.
  intros Hr. eexists _, _. split_and!; [by apply get_neighbour_set_nonneg..|].
  rewrite !elem_of_difference, !elem_of_square, !not_elem_of_singleton.
  split; (intros [? ?]; split; [lia|congruence]).
Qed.

Lemma get_neighbour_set_symmetric_witness :
  0 ≤ 3 ∧
  ∃ of_c of_n,
    get_neighbour_set (0, 0) 3 = Ok of_c ∧
    get_neighbour_set (2, -3) 3 = Ok of_n ∧
    ((2, -3) ∈ of_c ↔ (0, 0) ∈ of_n).
Proof.
  split; [lia|]. apply (get_neighbour_set_symmetric (0, 0) (2, -3) 3). lia.
Defined.

(** X6.  A larger range gives a larger neighbourhood. *)
Theorem get_neighbour_set_monotone c small large :
  0 ≤ small ≤ large →
  ∃ inner outer,
    get_neighbour_set c small = Ok inner ∧
    get_neighbour_set c large = Ok outer ∧
    inner ⊆ outer.
Proof.
  intros Hr. eexists _, _.
  split_and!; [apply get_neighbour_set_nonneg; lia..|].
  intros n. rewrite !elem_of_difference, !elem_of_square. intros [? ?].
  split; [lia|done].
Qed.

Lemma get_neighbour_set_monotone_witness :
  0 ≤ 1 ≤ 2 ∧
  ∃ inner outer,
    get_neighbour_set (4, 4) 1 = Ok inner ∧
    get_neighbour_set (4, 4) 2 = Ok outer ∧
    inner ⊆ outer.
Proof.
  split; [lia|]. apply (get_neighbour_set_monotone (4, 4) 1 2). lia.
Defined.

(** * The board *)

(** ** [set_squares] *)

Lemma fill_row_step W y row_num x nodes :
  fill_row W y row_num x nodes =
    if decide (x ≤ W) then
      match nodes !! row_num with
      | Some square_row =>
          fill_row W y row_num (x + SQUARE_SIDE_LENGTH)
            (<[row_num := square_row ++ [new_Square x y]]> nodes)
      | None => Raise IndexError
      end
    else Done nodes.
Proof.
  rewrite fill_row_equation_1.
  destruct (decide (x ≤ W)); simpl; [|done].
  by destruct (nodes !! row_num).
Qed.

Lemma fill_rows_step W H y row_num nodes :
  fill_rows W H y row_num nodes =
    if decide (y ≤ H) then
      nodes' ← fill_row W y row_num 0 (nodes ++ [[]]);
      fill_rows W H (y + SQUARE_SIDE_LENGTH) (S row_num) nodes'
    else Done nodes.
Proof.
  rewrite fill_rows_equation_1.
  destruct (decide (y ≤ H)); simpl; [|done].
  by destruct (fill_row _ _ _ _ _).
Qed.

(** Index [k] has a square exactly when its pixel offset fits. *)
Lemma index_fits k W :
  k < W / SQUARE_SIDE_LENGTH + 1 ↔ SQUARE_SIDE_LENGTH * k ≤ W.
Proof.
  unfold SQUARE_SIDE_LENGTH.
  pose proof (Z.div_mod W 15). pose proof (Z.mod_pos_bound W 15). lia.
Qed.

Lemma index_of_pixel k : SQUARE_SIDE_LENGTH * k / SQUARE_SIDE_LENGTH = k.
Proof. unfold SQUARE_SIDE_LENGTH. by rewrite Z.mul_comm, Z.div_mul. Qed.

Lemma fill_row_spec W y row_num k nodes square_row :
  nodes !! row_num = Some square_row →
  fill_row W y row_num (SQUARE_SIDE_LENGTH * k) nodes =
    Done (<[row_num := square_row ++ row_squares W y k]> nodes).
Proof.
  unfold row_squares.
  remember (Z.to_nat (W / SQUARE_SIDE_LENGTH + 1 - k)) as n eqn:Hn.
  revert k nodes square_row Hn.
  induction n as [|n IH]; intros k nodes square_row Hn Hrow;
    rewrite fill_row_step; pose proof (index_fits k W) as Hfit.
  - rewrite decide_False by lia. rewrite seqZ_nil by lia. simpl.
    by rewrite app_nil_r, list_insert_id.
  - rewrite decide_True by lia. rewrite Hrow.
    replace (SQUARE_SIDE_LENGTH * k + SQUARE_SIDE_LENGTH)
      with (SQUARE_SIDE_LENGTH * Z.succ k) by lia.
    rewrite (IH (Z.succ k) _ (square_row ++ [new_Square (SQUARE_SIDE_LENGTH * k) y]));
      [|lia|].
    + rewrite list_insert_insert_eq, (seqZ_cons k) by lia. simpl.
      rewrite <- app_assoc. simpl.
      by replace (W / SQUARE_SIDE_LENGTH + 1 - Z.succ k)
        with (Z.pred (W / SQUARE_SIDE_LENGTH + 1 - k)) by lia.
    + apply list_lookup_insert_eq. by eapply lookup_lt_Some.
Qed.

Lemma fill_rows_spec W H k nodes :
  fill_rows W H (SQUARE_SIDE_LENGTH * k) (length nodes) nodes =
    Done (nodes ++ grid_rows W H k).
Proof.
  unfold grid_rows.
  remember (Z.to_nat (H / SQUARE_SIDE_LENGTH + 1 - k)) as n eqn:Hn.
  revert k nodes Hn.
  induction n as [|n IH]; intros k nodes Hn;
    rewrite fill_rows_step; pose proof (index_fits k H) as Hfit.
  - rewrite decide_False by lia. rewrite seqZ_nil by lia. simpl.
    by rewrite app_nil_r.
  - rewrite decide_True by lia.
    pose proof (fill_row_spec W (SQUARE_SIDE_LENGTH * k) (length nodes) 0
                  (nodes ++ [[]]) []) as Hrow.
    rewrite Z.mul_0_r in Hrow. rewrite Hrow by by apply list_lookup_middle.
    simpl.
    replace (length nodes) with (length nodes + 0)%nat at 2 by lia.
    rewrite insert_app_r. simpl.
    replace (SQUARE_SIDE_LENGTH * k + SQUARE_SIDE_LENGTH)
      with (SQUARE_SIDE_LENGTH * Z.succ k) by lia.
    replace (S (length nodes))
      with (length (nodes ++ [row_squares W (SQUARE_SIDE_LENGTH * k) 0]))
      by (rewrite length_app; simpl; lia).
    rewrite IH by lia.
    rewrite (seqZ_cons k) by lia. simpl. rewrite <- app_assoc. simpl.
    by replace (H / SQUARE_SIDE_LENGTH + 1 - Z.succ k)
      with (Z.pred (H / SQUARE_SIDE_LENGTH + 1 - k)) by lia.
Qed.

Lemma set_squares_grid W H : set_squares W H = Done (grid W H).
Proof. apply (fill_rows_spec W H 0 []). Qed.

Lemma lookup_row_squares W y (col : nat) :
  row_squares W y 0 !! col =
    if decide (SQUARE_SIDE_LENGTH * Z.of_nat col ≤ W)
    then Some (new_Square (SQUARE_SIDE_LENGTH * Z.of_nat col) y) else None.
Proof.
  unfold row_squares. rewrite list_lookup_fmap.
  pose proof (index_fits (Z.of_nat col) W). destruct (decide _).
  - rewrite lookup_seqZ_lt by lia. done.
  - rewrite lookup_seqZ_ge by lia. done.
Qed.

Lemma lookup_grid W H (row : nat) :
  grid W H !! row =
    if decide (SQUARE_SIDE_LENGTH * Z.of_nat row ≤ H)
    then Some (row_squares W (SQUARE_SIDE_LENGTH * Z.of_nat row) 0) else None.
Proof.
  unfold grid, grid_rows. rewrite list_lookup_fmap.
  pose proof (index_fits (Z.of_nat row) H). destruct (decide _).
  - rewrite lookup_seqZ_lt by lia. done.
  - rewrite lookup_seqZ_ge by lia. done.
Qed.

Lemma square_at_grid W H row col :
  square_at (grid W H) row col =
    if decide (SQUARE_SIDE_LENGTH * Z.of_nat row ≤ H ∧ SQUARE_SIDE_LENGTH * Z.of_nat col ≤ W)
    then Some (new_Square (SQUARE_SIDE_LENGTH * Z.of_nat col) (SQUARE_SIDE_LENGTH * Z.of_nat row))
    else None.
Proof.
  unfold square_at. rewrite lookup_grid.
  destruct (decide (_ * Z.of_nat row ≤ H)); simpl.
  - rewrite lookup_row_squares. destruct (decide (_ * Z.of_nat col ≤ W)).
    + by rewrite decide_True.
    + rewrite decide_False; [done|tauto].
  - rewrite decide_False; [done|tauto].
Qed.

(** X7.  [set_squares] never fails, and lays out one dead square for every
    multiple of the side length that fits in the window, across and down:
    the square in row [row] and column [col] sits at pixel
    [(15·col, 15·row)]. *)
Theorem set_squares_spec W H :
  ∃ nodes, set_squares W H = Done nodes ∧
    ∀ (row col : nat) square,
      square_at nodes row col = Some square ↔
        SQUARE_SIDE_LENGTH * Z.of_nat row ≤ H ∧ SQUARE_SIDE_LENGTH * Z.of_nat col ≤ W ∧
        square = new_Square (SQUARE_SIDE_LENGTH * Z.of_nat col) (SQUARE_SIDE_LENGTH * Z.of_nat row).
Proof.
  exists (grid W H). split; [apply set_squares_grid|].
  intros row col square. rewrite square_at_grid.
  destruct (decide _) as [[??]|Hout]; [|split; [done|tauto]].
  split; [by intros [= <-]|by intros (_ & _ & ->)].
Qed.

(** ** [live_node_indexes] *)

Lemma set_alive_dead square : alive square = false → set_alive false square = square.
Proof. destruct square; simpl. by intros ->. Qed.

Lemma collect_square_spec square acc :
  collect_square square acc =
    (set_alive false square,
     if alive square then set_add (index_of square) acc else acc).
Proof.
  unfold collect_square. destruct (alive square) eqn:Halive; [done|].
  by rewrite set_alive_dead.
Qed.

Lemma collect_row_spec square_row acc :
  (collect_row square_row acc).1 = set_alive false <$> square_row ∧
  ∀ c, c ∈ (collect_row square_row acc).2 ↔
    c ∈ acc ∨ ∃ square, square ∈ square_row ∧ alive square = true ∧ c = index_of square.
Proof.
  revert acc. induction square_row as [|square rest IH]; intros acc; simpl.
  - split; [done|]. intros c. split; [by left|].
    intros [?|(square & []%elem_of_nil & _)]; done.
  - rewrite collect_square_spec.
    destruct (IH (if alive square then set_add (index_of square) acc else acc))
      as [Hrow Hset].
    destruct (collect_row rest _) as [rest' acc'] eqn:Hrest. simpl in *.
    split; [by rewrite Hrow|]. intros c. rewrite Hset.
    setoid_rewrite elem_of_cons. unfold set_add.
    destruct (alive square) eqn:Halive.
    + rewrite elem_of_union, elem_of_singleton. split.
      * intros [[->|?]|(sq & ? & ? & ?)]; eauto 7.
      * intros [?|(sq & [->|?] & ? & ?)]; eauto 7.
    + split.
      * intros [?|(sq & ? & ? & ?)]; eauto 7.
      * intros [?|(sq & [->|?] & ? & ?)]; [auto|congruence|eauto 7].
Qed.

Lemma collect_rows_spec nodes acc :
  (collect_rows nodes acc).1 = clear nodes ∧
  ∀ c, c ∈ (collect_rows nodes acc).2 ↔
    c ∈ acc ∨ ∃ square_row square,
      square_row ∈ nodes ∧ square ∈ square_row ∧
      alive square = true ∧ c = index_of square.
Proof.
  revert acc. induction nodes as [|square_row rest IH]; intros acc; simpl.
  - split; [done|]. intros c. split; [by left|].
    intros [?|(? & ? & []%elem_of_nil & _)]; done.
  - destruct (collect_row_spec square_row acc) as [Hrow Hset].
    destruct (collect_row square_row acc) as [square_row' acc'] eqn:Hfirst.
    simpl in *. destruct (IH acc') as [Hrows Hsets].
    destruct (collect_rows rest acc') as [rest' acc''] eqn:Hrest. simpl in *.
    split; [by rewrite Hrow, Hrows|]. intros c. rewrite Hsets, Hset.
    setoid_rewrite elem_of_cons. naive_solver.
Qed.

Lemma elem_of_board nodes square :
  (∃ square_row, square_row ∈ nodes ∧ square ∈ square_row) ↔
  ∃ row col, square_at nodes row col = Some square.
Proof.
  unfold square_at. split.
  - intros (square_row & [row Hrow]%list_elem_of_lookup & [col Hcol]%list_elem_of_lookup).
    exists row, col. by rewrite Hrow.
  - intros (row & col & Hat).
    destruct (nodes !! row) as [square_row|] eqn:Hrow; [|done]. simpl in Hat.
    exists square_row. split; by eapply list_elem_of_lookup_2.
Qed.

Lemma live_node_indexes_board nodes : (live_node_indexes nodes).2 = clear nodes.
Proof.
  unfold live_node_indexes. destruct (collect_rows_spec nodes ∅) as [Hrows _].
  by destruct (collect_rows nodes ∅).
Qed.

Lemma elem_of_live_node_indexes nodes c :
  c ∈ (live_node_indexes nodes).1 ↔
  ∃ row col square,
    square_at nodes row col = Some square ∧ alive square = true ∧
    c = index_of square.
Proof.
  unfold live_node_indexes. destruct (collect_rows_spec nodes ∅) as [_ Hset].
  destruct (collect_rows nodes ∅) as [nodes' live]. simpl in *. rewrite Hset.
  split.
  - intros [[]%not_elem_of_empty|(square_row & square & ? & ? & ? & ?)].
    destruct (proj1 (elem_of_board nodes square)) as (row & col & ?); [by eauto|].
    by exists row, col, square.
  - intros (row & col & square & Hat & ? & ?). right.
    destruct (proj2 (elem_of_board nodes square)) as (square_row & ? & ?);
      [by eauto|].
    by exists square_row, square.
Qed.

Lemma square_at_clear nodes row col :
  square_at (clear nodes) row col = set_alive false <$> square_at nodes row col.
Proof.
  unfold square_at, clear. rewrite list_lookup_fmap.
  destruct (nodes !! row); simpl; [|done]. by rewrite list_lookup_fmap.
Qed.

Lemma clear_clear nodes : clear (clear nodes) = clear nodes.
Proof.
  unfold clear. rewrite <- list_fmap_compose. apply list_fmap_ext.
  intros _ square_row _. simpl. rewrite <- list_fmap_compose.
  by apply list_fmap_ext.
Qed.

Lemma clear_grid W H : clear (grid W H) = grid W H.
Proof.
  unfold clear, grid, grid_rows. rewrite <- list_fmap_compose.
  apply list_fmap_ext. intros _ row _. simpl. unfold row_squares.
  rewrite <- list_fmap_compose. by apply list_fmap_ext.
Qed.

(** On a board of the window, a square is where its indices say. *)
Lemma on_grid_square_at W H nodes row col square :
  on_grid W H nodes → square_at nodes row col = Some square →
  (SQUARE_SIDE_LENGTH * Z.of_nat row ≤ H ∧
   SQUARE_SIDE_LENGTH * Z.of_nat col ≤ W) ∧
  Square_x square = SQUARE_SIDE_LENGTH * Z.of_nat col ∧
  Square_y square = SQUARE_SIDE_LENGTH * Z.of_nat row.
Proof.
  intros Hgrid Hat.
  pose proof (square_at_clear nodes row col) as Hclear.
  rewrite Hgrid, square_at_grid, Hat in Hclear. simpl in Hclear.
  destruct (decide _); [|done]. split; [done|].
  destruct square. unfold set_alive, new_Square in Hclear. simpl in *.
  by injection Hclear as <- <-.
Qed.

Lemma on_grid_is_Some W H nodes row col :
  on_grid W H nodes →
  SQUARE_SIDE_LENGTH * Z.of_nat row ≤ H →
  SQUARE_SIDE_LENGTH * Z.of_nat col ≤ W →
  is_Some (square_at nodes row col).
Proof.
  intros Hgrid Hrow Hcol.
  pose proof (square_at_clear nodes row col) as Hclear.
  rewrite Hgrid, square_at_grid, decide_True in Hclear by done.
  destruct (square_at nodes row col); [by eexists|done].
Qed.

Lemma on_grid_index_of W H nodes row col square :
  on_grid W H nodes → square_at nodes row col = Some square →
  index_of square = (Z.of_nat col, Z.of_nat row).
Proof.
  intros Hgrid Hat.
  destruct (on_grid_square_at W H nodes row col square Hgrid Hat)
    as (_ & Hx & Hy).
  unfold index_of. by rewrite Hx, Hy, !index_of_pixel.
Qed.



(** X9.  Reading [live_node_indexes] consumes the board: a second read
    right after the first returns the empty set. *)
Theorem live_node_indexes_twice nodes :
  (live_node_indexes (live_node_indexes nodes).2).1 = ∅.
Proof.
  rewrite live_node_indexes_board. apply set_eq. intros c.
  rewrite elem_of_live_node_indexes. split; [|by intros []%not_elem_of_empty].
  intros (row & col & square & Hat & Halive & _).
  rewrite square_at_clear in Hat.
  destruct (square_at nodes row col) as [square'|]; [|done].
  injection Hat as <-. done.
Qed.

(** ** Indexing and references *)

Lemma list_index_in_range n i :
  0 ≤ i < n → list_index n i = Done (Z.to_nat i).
Proof.
  intros Hi. unfold list_index.
  rewrite (decide_False (P := i < 0)) by lia. by rewrite decide_True.
Qed.

Lemma list_index_negative n i :
  - n ≤ i < 0 → list_index n i = Done (Z.to_nat (i + n)).
Proof.
  intros Hi. unfold list_index.
  rewrite (decide_True (P := i < 0)) by lia. by rewrite decide_True by lia.
Qed.

Lemma list_index_out_of_range n i :
  i < - n ∨ n ≤ i → list_index n i = Raise IndexError.
Proof.
  intros Hi. unfold list_index.
  destruct (decide (i < 0)); by rewrite decide_False by lia.
Qed.

Lemma list_index_lt n i pos : list_index n i = Done pos → Z.of_nat pos < n.
Proof.
  unfold list_index. destruct (decide (i < 0)), (decide _); intros [= <-]; lia.
Qed.

Lemma getitem_lookup {A : Type} (l : list A) i pos :
  list_index (len l) i = Done pos →
  ∃ a, l !! pos = Some a ∧ getitem l i = Done a.
Proof.
  intros Hpos. unfold getitem. rewrite Hpos. simpl.
  apply list_index_lt in Hpos. unfold len in Hpos.
  destruct (lookup_lt_is_Some_2 l pos) as [a Ha]; [lia|].
  exists a. by rewrite Ha.
Qed.

Lemma square_ref_lookup nodes row col row_pos square_row col_pos :
  list_index (len nodes) row = Done row_pos →
  nodes !! row_pos = Some square_row →
  list_index (len square_row) col = Done col_pos →
  square_ref nodes row col = Done (row_pos, col_pos).
Proof.
  intros Hrow Hlookup Hcol. unfold square_ref. rewrite Hrow. simpl.
  destruct (getitem_lookup nodes row row_pos Hrow) as (square_row' & Hl & ->).
  simpl. rewrite Hlookup in Hl. injection Hl as <-. by rewrite Hcol.
Qed.

Lemma square_at_update_alive f ref nodes row col :
  square_at (update_alive f ref nodes) row col =
    (λ square, if decide (row = ref.1 ∧ col = ref.2)
               then set_alive (f (alive square)) square else square)
      <$> square_at nodes row col.
Proof.
  unfold square_at, update_alive. destruct ref as [r c]. simpl.
  destruct (decide (row = r)) as [->|Hrow].
  - rewrite list_lookup_alter_eq. destruct (nodes !! r) as [square_row|]; [|done].
    simpl. destruct (decide (col = c)) as [->|Hcol].
    + rewrite list_lookup_alter_eq. destruct (square_row !! c); [|done]. simpl.
      by rewrite decide_True.
    + rewrite list_lookup_alter_ne by done. destruct (square_row !! col); [|done].
      simpl. rewrite decide_False; [done|tauto].
  - rewrite list_lookup_alter_ne by done.
    destruct (nodes !! row ≫= (.!! col)); [|done]. simpl.
    rewrite decide_False; [done|tauto].
Qed.

Lemma clear_update_alive f ref nodes :
  clear (update_alive f ref nodes) = clear nodes.
Proof.
  unfold clear, update_alive.
  rewrite (list_fmap_alter _ _ id); [by rewrite list_alter_id|].
  apply Forall_forall. intros square_row _. simpl.
  rewrite (list_fmap_alter _ _ id); [by rewrite list_alter_id|].
  apply Forall_forall. by intros square _.
Qed.

Lemma update_alive_involutive ref nodes :
  update_alive negb ref (update_alive negb ref nodes) = nodes.
Proof.
  unfold update_alive. rewrite list_alter_alter_eq. apply list_alter_id.
  intros square_row. simpl. rewrite list_alter_alter_eq. apply list_alter_id.
  intros [x y b]. unfold set_alive. simpl. by rewrite negb_involutive.
Qed.

Lemma length_update_alive f ref nodes :
  length (update_alive f ref nodes) = length nodes.
Proof. apply length_alter. Qed.

Lemma lookup_update_alive_length f ref nodes row square_row :
  update_alive f ref nodes !! row = Some square_row →
  ∃ square_row', nodes !! row = Some square_row' ∧
    length square_row = length square_row'.
Proof.
  unfold update_alive. rewrite list_lookup_alter.
  destruct (decide (ref.1 = row)) as [<-|_].
  - destruct (nodes !! ref.1) as [square_row'|]; simpl; [|done].
    intros [= <-]. exists square_row'. split; [done|apply length_alter].
  - intros ->. by eexists.
Qed.

(** ** The update of the board *)

Lemma revive_spec c nodes :
  ∃ nodes', revive c nodes = Done nodes' ∧ clear nodes' = clear nodes ∧
    ∀ row col,
      square_at nodes' row col =
        (λ square, if decide ((Z.of_nat col, Z.of_nat row) = c)
                   then set_alive true square else square)
          <$> square_at nodes row col.
Proof.
  destruct c as [x y]. unfold revive.
  assert (∀ row col,
            (∀ square_row, nodes !! row = Some square_row →
               ¬ (Z.of_nat col = x ∧ Z.of_nat row = y ∧ Z.of_nat col < len square_row)) →
            square_at nodes row col =
              (λ square, if decide ((Z.of_nat col, Z.of_nat row) = (x, y))
                         then set_alive true square else square)
                <$> square_at nodes row col) as Hmiss.
  { intros row col Hne. unfold square_at.
    destruct (nodes !! row) as [square_row|] eqn:Hrow; [|done]. simpl.
    destruct (square_row !! col) as [square|] eqn:Hcol; [|done]. simpl.
    rewrite decide_False; [done|]. intros [= <- <-].
    apply (Hne square_row); [done|]. split_and!; [done..|].
    apply lookup_lt_Some in Hcol. unfold len. lia. }
  destruct (decide (y ∈ range 0 (len nodes))) as [Hy|Hy];
    rewrite elem_of_range in Hy.
  - pose proof (list_index_in_range (len nodes) y Hy) as Hrow.
    destruct (getitem_lookup nodes y _ Hrow) as (square_row & Hl & ->). simpl.
    destruct (decide (x ∈ range 0 (len square_row))) as [Hx|Hx];
      rewrite elem_of_range in Hx.
    + rewrite (square_ref_lookup nodes y x _ square_row (Z.to_nat x) Hrow Hl)
        by by apply list_index_in_range.
      simpl. eexists. split; [done|]. split; [apply clear_update_alive|].
      intros row col. rewrite square_at_update_alive. simpl.
      destruct (square_at nodes row col); [|done]. simpl. f_equal.
      destruct (decide (row = _ ∧ _)) as [[-> ->]|Hne].
      * rewrite decide_True; [done|]. f_equal; lia.
      * rewrite decide_False; [done|]. intros [= <- <-]. apply Hne.
        by rewrite !Nat2Z.id.
    + exists nodes. split_and!; [done..|]. intros row col. apply Hmiss.
      intros square_row' Hrow' (<- & <- & ?).
      rewrite Nat2Z.id, Hrow' in Hl. injection Hl as ->. lia.
  - exists nodes. split_and!; [done..|]. intros row col. apply Hmiss.
    intros square_row' Hrow' (_ & <- & _).
    apply lookup_lt_Some in Hrow'. unfold len in Hy. lia.
Qed.

Lemma revive_all cs nodes :
  ∃ nodes', host_for_each cs revive nodes = Done nodes' ∧
    clear nodes' = clear nodes ∧
    ∀ row col,
      square_at nodes' row col =
        (λ square, if decide ((Z.of_nat col, Z.of_nat row) ∈ cs)
                   then set_alive true square else square)
          <$> square_at nodes row col.
Proof.
  revert nodes. induction cs as [|c cs IH]; intros nodes; cbn [host_for_each].
  - exists nodes. split_and!; [done..|]. intros row col.
    destruct (square_at nodes row col); [|done]. cbn [fmap option_fmap option_map].
    destruct (decide _) as [[]%elem_of_nil|]; done.
  - destruct (revive_spec c nodes) as (mid & -> & Hclear & Hmid).
    cbn [mbind outcome_bind].
    destruct (IH mid) as (nodes' & -> & Hclear' & Hnodes').
    exists nodes'. split; [done|]. split; [congruence|].
    intros row col. rewrite Hnodes', Hmid.
    destruct (square_at nodes row col) as [square|]; [|done].
    cbn [fmap option_fmap option_map]. f_equal.
    destruct (decide (_ ∈ c :: cs)) as [Hin|Hin];
      destruct (decide (_ = c)) as [Heq|Hne];
      destruct (decide (_ ∈ cs)) as [Hin'|Hin']; try done;
      exfalso; rewrite elem_of_cons in Hin; tauto.
Qed.

Lemma call_next_board_state iter live :
  ∃ out, next_board_state iter live = Ok out ∧
    call (next_board_state iter live) = Done out.
Proof.
  destruct (for_each_total (live_cell_step iter live)
              (live_cell_step_total iter live) (iter live) ∅) as [out Hout].
  exists out. unfold next_board_state. by rewrite Hout.
Qed.

Lemma advance_spec iter nodes :
  enumerates iter →
  ∃ out nodes',
    next_board_state iter (live_node_indexes nodes).1 = Ok out ∧
    advance iter nodes = Done nodes' ∧
    clear nodes' = clear nodes ∧
    ∀ row col,
      square_at nodes' row col =
        set_alive (bool_decide ((Z.of_nat col, Z.of_nat row) ∈ out))
          <$> square_at nodes row col.
Proof.
  intros Hiter. unfold advance.
  pose proof (live_node_indexes_board nodes) as Hboard.
  destruct (live_node_indexes nodes) as [live cleared]. simpl in *. subst cleared.
  destruct (call_next_board_state iter live) as (out & Hout & ->). simpl.
  destruct (revive_all (iter out) (clear nodes))
    as (nodes' & -> & Hclear & Hnodes').
  exists out, nodes'. split_and!; [done..|by rewrite Hclear, clear_clear|].
  intros row col. rewrite Hnodes', square_at_clear.
  destruct (square_at nodes row col) as [square|]; [|done]. simpl. f_equal.
  unfold set_alive. simpl.
  destruct (decide _) as [Hin|Hin]; rewrite (enumerates_elem iter Hiter) in Hin.
  - by rewrite bool_decide_eq_true_2.
  - by rewrite bool_decide_eq_false_2.
Qed.

(** X10.  One update of the board never fails, whatever the shape of the
    board: it keeps every square in place and sets the square in row [row]
    and column [col] alive exactly when cell [(col, row)] is in the next
    state of the live squares read off the board. *)
Theorem advance_updates_board iter nodes :
  enumerates iter →
  ∃ out nodes',
    next_board_state iter (live_node_indexes nodes).1 = Ok out ∧
    advance iter nodes = Done nodes' ∧
    clear nodes' = clear nodes ∧
    ∀ row col,
      square_at nodes' row col =
        set_alive (bool_decide ((Z.of_nat col, Z.of_nat row) ∈ out))
          <$> square_at nodes row col.
Proof. apply advance_spec. Qed.

Lemma advance_updates_board_witness :
  enumerates elements ∧
  ∃ out nodes',
    next_board_state elements
      (live_node_indexes [[new_Square_with 0 0 true]; []]).1 = Ok out ∧
    advance elements [[new_Square_with 0 0 true]; []] = Done nodes' ∧
    clear nodes' = clear [[new_Square_with 0 0 true]; []] ∧
    ∀ row col,
      square_at nodes' row col =
        set_alive (bool_decide ((Z.of_nat col, Z.of_nat row) ∈ out))
          <$> square_at [[new_Square_with 0 0 true]; []] row col.
Proof.
  split; [intros s; reflexivity|].
  apply (advance_updates_board elements [[new_Square_with 0 0 true]; []]).
  intros s; reflexivity.
Defined.

Lemma index_of_set_alive b square : index_of (set_alive b square) = index_of square.
Proof. done. Qed.

(** X11.  On a board of the window, one update computes the next state
    clipped to the window: the live squares afterwards are the cells of
    [next_board_state] that have a square, and the cells outside are lost. *)
Theorem advance_clips_to_viewport W H iter nodes :
  enumerates iter → on_grid W H nodes →
  ∃ out nodes',
    next_board_state iter (live_node_indexes nodes).1 = Ok out ∧
    advance iter nodes = Done nodes' ∧
    on_grid W H nodes' ∧
    ∀ c, c ∈ (live_node_indexes nodes').1 ↔ c ∈ out ∧ in_viewport W H c.
Proof.
  intros Hiter Hgrid.
  destruct (advance_spec iter nodes Hiter) as (out & nodes' & Hout & Hrun & Hclear & Hnodes').
  exists out, nodes'. split_and!; [done..|by unfold on_grid; rewrite Hclear|].
  intros c. rewrite elem_of_live_node_indexes. unfold in_viewport. split.
  - intros (row & col & square' & Hat & Halive & ->).
    rewrite Hnodes' in Hat.
    destruct (square_at nodes row col) as [square|] eqn:Hsq; [|done].
    injection Hat as <-. rewrite index_of_set_alive.
    destruct (on_grid_square_at W H nodes row col square Hgrid Hsq) as [[??] _].
    rewrite (on_grid_index_of W H nodes row col square Hgrid Hsq). simpl in *.
    apply bool_decide_eq_true in Halive. split; [done|lia].
  - destruct c as [x y]. simpl. intros (Hin & [? ?] & [? ?]).
    destruct (on_grid_is_Some W H nodes (Z.to_nat y) (Z.to_nat x) Hgrid)
      as [square Hsq]; [by rewrite Z2Nat.id by lia..|].
    exists (Z.to_nat y), (Z.to_nat x), (set_alive true square).
    rewrite Hnodes', Hsq, !Z2Nat.id by lia. simpl.
    rewrite bool_decide_eq_true_2 by done. split_and!; [done..|].
    rewrite index_of_set_alive.
    rewrite (on_grid_index_of W H nodes _ _ square Hgrid Hsq).
    by rewrite !Z2Nat.id by lia.
Qed.

Lemma advance_clips_to_viewport_witness :
  enumerates elements ∧ on_grid 30 30 (update_alive negb (0, 1)%nat (grid 30 30)) ∧
  ∃ out nodes',
    next_board_state elements
      (live_node_indexes (update_alive negb (0, 1)%nat (grid 30 30))).1 = Ok out ∧
    advance elements (update_alive negb (0, 1)%nat (grid 30 30)) = Done nodes' ∧
    on_grid 30 30 nodes' ∧
    ∀ c, c ∈ (live_node_indexes nodes').1 ↔ c ∈ out ∧ in_viewport 30 30 c.
Proof.
  assert (enumerates elements) as Hiter by (intros s; reflexivity).
  assert (on_grid 30 30 (update_alive negb (0, 1)%nat (grid 30 30))) as Hgrid
    by (vm_compute; reflexivity).
  split_and!; [done..|].
  exact (advance_clips_to_viewport 30 30 elements _ Hiter Hgrid).
Defined.

(** ** [find_clicked_square] *)

Lemma length_grid W H : len (grid W H) = Z.max 0 (H / SQUARE_SIDE_LENGTH + 1).
Proof.
  unfold len, grid, grid_rows. rewrite length_fmap, length_seqZ. lia.
Qed.

Lemma length_row_squares W y : len (row_squares W y 0) = Z.max 0 (W / SQUARE_SIDE_LENGTH + 1).
Proof.
  unfold len, row_squares. rewrite length_fmap, length_seqZ. lia.
Qed.

Lemma on_grid_len W H nodes :
  on_grid W H nodes → len nodes = Z.max 0 (H / SQUARE_SIDE_LENGTH + 1).
Proof.
  intros Hgrid. rewrite <- (length_grid W H), <- Hgrid. unfold len, clear.
  by rewrite length_fmap.
Qed.

Lemma on_grid_row_len W H nodes row square_row :
  on_grid W H nodes → nodes !! row = Some square_row →
  len square_row = Z.max 0 (W / SQUARE_SIDE_LENGTH + 1).
Proof.
  intros Hgrid Hrow.
  assert (clear nodes !! row = Some (set_alive false <$> square_row)) as Hclear
    by (unfold clear; by rewrite list_lookup_fmap, Hrow).
  rewrite Hgrid, lookup_grid in Hclear. destruct (decide _); [|done].
  injection Hclear as Hclear.
  rewrite <- (length_row_squares W (SQUARE_SIDE_LENGTH * Z.of_nat row)), Hclear.
  unfold len. by rewrite length_fmap.
Qed.

(** The square a Python index selects in a list of [n] items. *)
Lemma list_index_wrap n i :
  list_index n i =
    if decide (- n ≤ i < n)
    then Done (Z.to_nat (if decide (i < 0) then i + n else i))
    else Raise IndexError.
Proof.
  unfold list_index. destruct (decide (i < 0)), (decide (- n ≤ i < n)).
  - by rewrite decide_True by lia.
  - by rewrite decide_False by lia.
  - by rewrite decide_True by lia.
  - by rewrite decide_False by lia.
Qed.

Lemma find_clicked_square_on_grid W H nodes x y :
  on_grid W H nodes → 0 ≤ W → 0 ≤ H →
  find_clicked_square (x, y) nodes =
    let rows := H / SQUARE_SIDE_LENGTH + 1 in
    let cols := W / SQUARE_SIDE_LENGTH + 1 in
    let row_num := y / SQUARE_SIDE_LENGTH in
    let col_num := x / SQUARE_SIDE_LENGTH in
    if decide ((- rows ≤ row_num < rows) ∧ (- cols ≤ col_num < cols))
    then Done (Z.to_nat (if decide (row_num < 0) then row_num + rows else row_num),
               Z.to_nat (if decide (col_num < 0) then col_num + cols else col_num))
    else Raise IndexError.
Proof.
  intros Hgrid HW HH. cbv zeta. unfold find_clicked_square, square_ref.
  assert (0 ≤ W / SQUARE_SIDE_LENGTH ∧ 0 ≤ H / SQUARE_SIDE_LENGTH) as [? ?]
    by (unfold SQUARE_SIDE_LENGTH; split; apply Z.div_pos; lia).
  pose proof (on_grid_len W H nodes Hgrid) as Hlen.
  rewrite Z.max_r in Hlen by lia.
  destruct (list_index (len nodes) (y / SQUARE_SIDE_LENGTH)) as [row_pos|e] eqn:Hrow;
    rewrite list_index_wrap, Hlen in Hrow.
  - destruct (decide (- _ ≤ y / _ < _)) as [Hy|]; [|done].
    injection Hrow as <-. simpl.
    rewrite <- Hlen in Hy.
    pose proof (list_index_wrap (len nodes) (y / SQUARE_SIDE_LENGTH)) as Hrow.
    rewrite decide_True in Hrow by done.
    destruct (getitem_lookup nodes _ _ Hrow) as (square_row & Hl & ->). simpl.
    rewrite Hlen in Hl, Hy.
    rewrite list_index_wrap, (on_grid_row_len W H nodes _ square_row Hgrid Hl).
    rewrite Z.max_r by lia.
    destruct (decide (- _ ≤ x / _ < _)) as [Hx|Hx]; simpl;
      destruct (decide (_ ∧ _)); (done || tauto).
  - destruct (decide (- _ ≤ y / _ < _)) as [|Hy]; [done|].
    injection Hrow as <-. simpl. destruct (decide (_ ∧ _)); (done || tauto).
Qed.



(** X13.  On a board of the window a click is resolved the way Python
    indexes lists: a pixel beyond the last row or column raises
    [IndexError], and a negative pixel within one board size wraps around
    to the opposite edge instead of failing. *)
Theorem find_clicked_square_outcome W H nodes x y :
  on_grid W H nodes → 0 ≤ W → 0 ≤ H →
  find_clicked_square (x, y) nodes =
    let rows := H / SQUARE_SIDE_LENGTH + 1 in
    let cols := W / SQUARE_SIDE_LENGTH + 1 in
    let row_num := y / SQUARE_SIDE_LENGTH in
    let col_num := x / SQUARE_SIDE_LENGTH in
    if decide ((- rows ≤ row_num < rows) ∧ (- cols ≤ col_num < cols))
    then Done (Z.to_nat (if decide (row_num < 0) then row_num + rows else row_num),
               Z.to_nat (if decide (col_num < 0) then col_num + cols else col_num))
    else Raise IndexError.
Proof. apply find_clicked_square_on_grid. Qed.

Lemma find_clicked_square_outcome_witness :
  on_grid 44 30 (grid 44 30) ∧ 0 ≤ 44 ∧ 0 ≤ 30 ∧
  find_clicked_square (-1, 45) (grid 44 30) =
    let rows := 30 / SQUARE_SIDE_LENGTH + 1 in
    let cols := 44 / SQUARE_SIDE_LENGTH + 1 in
    let row_num := 45 / SQUARE_SIDE_LENGTH in
    let col_num := -1 / SQUARE_SIDE_LENGTH in
    if decide ((- rows ≤ row_num < rows) ∧ (- cols ≤ col_num < cols))
    then Done (Z.to_nat (if decide (row_num < 0) then row_num + rows else row_num),
               Z.to_nat (if decide (col_num < 0) then col_num + cols else col_num))
    else Raise IndexError.
Proof.
  assert (on_grid 44 30 (grid 44 30)) as Hgrid by (vm_compute; reflexivity).
  split_and!; [done|lia..|].
  apply (find_clicked_square_outcome 44 30 (grid 44 30) (-1) 45 Hgrid); lia.
Defined.

(** * The event loop *)

#[local] Arguments find_clicked_square : simpl never.
#[local] Arguments update_alive : simpl never.
#[local] Arguments reset : simpl never.
#[local] Arguments advance : simpl never.

Section Loop.
Variables W H : Z.

Lemma read_global_Some (GLOBALS : gmap string bool) name b :
  GLOBALS !! name = Some b → read_global GLOBALS name = Done b.
Proof. unfold read_global. by intros ->. Qed.

Lemma find_clicked_square_in_window nodes x y :
  on_grid W H nodes → 0 ≤ x ≤ W → 0 ≤ y ≤ H →
  find_clicked_square (x, y) nodes =
    Done (Z.to_nat (y / SQUARE_SIDE_LENGTH), Z.to_nat (x / SQUARE_SIDE_LENGTH)).
Proof.
  intros Hgrid Hx Hy.
  rewrite (find_clicked_square_on_grid W H) by (done || lia). cbv zeta.
  unfold SQUARE_SIDE_LENGTH.
  pose proof (Z.div_mod x 15). pose proof (Z.mod_pos_bound x 15).
  pose proof (Z.div_mod y 15). pose proof (Z.mod_pos_bound y 15).
  pose proof (Z.div_mod W 15). pose proof (Z.mod_pos_bound W 15).
  pose proof (Z.div_mod H 15). pose proof (Z.mod_pos_bound H 15).
  rewrite decide_True by lia. by rewrite !(decide_False (P := _ < 0)) by lia.
Qed.

Lemma on_grid_update_alive f ref nodes :
  on_grid W H nodes → on_grid W H (update_alive f ref nodes).
Proof. unfold on_grid. by rewrite clear_update_alive. Qed.

Lemma exits_dec ev : Decision (exits ev).
Proof. unfold exits. destruct ev as [| |[]|]; (left; tauto) || (right; intros [|]; done). Qed.

Lemma handle_event_spec ev st :
  host_inv W H st → in_window W H ev →
  if exits_dec ev
  then handle_event W H ev st = Raise SystemExit
  else ∃ st', handle_event W H ev st = Done st' ∧ host_inv W H st'.
Proof.
  destruct st as [GLOBALS nodes]. intros [[running Hrun] Hgrid] Hwin.
  simpl in Hrun, Hgrid.
  destruct (exits_dec ev) as [Hexit|Hstay]; unfold exits in *.
  - destruct Hexit as [->| ->]; [done|]. simpl.
    rewrite (read_global_Some _ _ _ Hrun). by destruct running.
  - destruct ev as [|[x y]|k|]; simpl.
    + tauto.
    + rewrite (read_global_Some _ _ _ Hrun). simpl. destruct running; simpl.
      * by eexists.
      * destruct Hwin. rewrite find_clicked_square_in_window by done. simpl.
        eexists. split; [done|]. split; [by eexists|].
        by apply on_grid_update_alive.
    + rewrite (read_global_Some _ _ _ Hrun). simpl.
      assert (host_inv W H (GLOBALS, nodes)) by (split; [by eexists|done]).
      destruct running, k; simpl; try tauto;
        unfold reset; rewrite ?set_squares_grid; simpl; (eexists; split; [done|]);
        try done; (split; simpl;
          [by rewrite lookup_insert; case_decide; eexists
          |done || apply clear_grid]).
    + eexists. split; [done|]. split; [by eexists|done].
Qed.

Lemma check_input_spec events st :
  host_inv W H st → Forall (in_window W H) events →
  (Exists exits events → check_input W H events st = Raise SystemExit) ∧
  (¬ Exists exits events →
     ∃ st', check_input W H events st = Done st' ∧ host_inv W H st').
Proof.
  intros Hinv Hwin. revert st Hinv.
  induction Hwin as [|ev events Hev _ IH]; intros st Hinv.
  - split; [by intros ?%Exists_nil|]. intros _. by exists st.
  - unfold check_input. simpl.
    pose proof (handle_event_spec ev st Hinv Hev) as Hstep.
    destruct (exits_dec ev) as [Hexit|Hstay].
    + rewrite Hstep. split; [done|]. intros []. by left.
    + destruct Hstep as (st' & -> & Hinv'). simpl.
      destruct (IH st' Hinv') as [IHexit IHstay]. split.
      * intros [?|?]%Exists_cons; [done|by apply IHexit].
      * intros Hnone. apply IHstay. intros ?. apply Hnone. by right.
Qed.

Lemma main_iteration_spec iter events st :
  enumerates iter → host_inv W H st → Forall (in_window W H) events →
  (Exists exits events → main_iteration W H iter events st = Raise SystemExit) ∧
  (¬ Exists exits events →
     ∃ st', main_iteration W H iter events st = Done st' ∧ host_inv W H st').
Proof.
  intros Hiter Hinv Hwin. unfold main_iteration.
  destruct (check_input_spec events st Hinv Hwin) as [Hexit Hstay]. split.
  - intros Hex. by rewrite (Hexit Hex).
  - intros Hnone. destruct (Hstay Hnone) as ([GLOBALS nodes] & -> & Hinv').
    simpl. destruct Hinv' as [[running Hrun] Hgrid]. simpl in *.
    rewrite (read_global_Some _ _ _ Hrun). simpl. destruct running.
    + destruct (advance_spec iter nodes Hiter)
        as (out & nodes' & _ & -> & Hclear & _). simpl.
      eexists. split; [done|]. split; [by eexists|].
      unfold on_grid. simpl. by rewrite Hclear.
    + eexists. split; [done|]. split; [by eexists|done].
Qed.

Lemma main_turns_spec iter turns st :
  enumerates iter → host_inv W H st →
  Forall (Forall (in_window W H)) turns →
  (Exists (Exists exits) turns →
     host_for_each turns (main_iteration W H iter) st = Raise SystemExit) ∧
  (¬ Exists (Exists exits) turns →
     ∃ st', host_for_each turns (main_iteration W H iter) st = Done st' ∧
       host_inv W H st').
Proof.
  intros Hiter Hinv Hwin. revert st Hinv.
  induction Hwin as [|events turns Hev _ IH]; intros st Hinv.
  - split; [by intros ?%Exists_nil|]. intros _. by exists st.
  - simpl.
    destruct (main_iteration_spec iter events st Hiter Hinv Hev) as [Hexit Hstay].
    destruct (@Exists_dec _ exits exits_dec events) as [Hex|Hnone].
    + rewrite (Hexit Hex). split; [done|]. intros []. by left.
    + destruct (Hstay Hnone) as (st' & -> & Hinv'). simpl.
      destruct (IH st' Hinv') as [IHexit IHstay]. split.
      * intros [?|?]%Exists_cons; [done|by apply IHexit].
      * intros Hno. apply IHstay. intros ?. apply Hno. by right.
Qed.
End Loop.

(** X14.  The program cannot crash: whatever clicks inside the window and
    whatever keys arrive, turn after turn, [main] raises nothing but the
    [SystemExit] of a QUIT or ESCAPE, and until then its board stays a board
    of the window and [GLOBALS] keeps its "RunAlg" entry. *)
Theorem main_only_exits W H iter turns :
  enumerates iter →
  Forall (Forall (in_window W H)) turns →
  (Exists (Exists exits) turns → main W H iter turns = Raise SystemExit) ∧
  (¬ Exists (Exists exits) turns →
     ∃ st, main W H iter turns = Done st ∧ host_inv W H st).
Proof.
  intros Hiter Hwin. unfold main, new_SquareList.
  rewrite set_squares_grid. simpl.
  apply main_turns_spec; [done| |done]. split; simpl.
  - by eexists.
  - apply clear_grid.
Qed.

Lemma main_only_exits_witness :
  enumerates elements ∧
  Forall (Forall (in_window 100 100))
    [[MOUSEBUTTONDOWN (20, 20); KEYDOWN K_RETURN]; [other_event]] ∧
  (Exists (Exists exits)
     [[MOUSEBUTTONDOWN (20, 20); KEYDOWN K_RETURN]; [other_event]] →
   main 100 100 elements
     [[MOUSEBUTTONDOWN (20, 20); KEYDOWN K_RETURN]; [other_event]]
     = Raise SystemExit) ∧
  (¬ Exists (Exists exits)
       [[MOUSEBUTTONDOWN (20, 20); KEYDOWN K_RETURN]; [other_event]] →
   ∃ st,
     main 100 100 elements
       [[MOUSEBUTTONDOWN (20, 20); KEYDOWN K_RETURN]; [other_event]] = Done st ∧
     host_inv 100 100 st).
Proof.
  assert (enumerates elements) as Hiter by (intros s; reflexivity).
  assert (Forall (Forall (in_window 100 100))
            [[MOUSEBUTTONDOWN (20, 20); KEYDOWN K_RETURN]; [other_event]])
    as Hwin by (repeat constructor; simpl; lia).
  split; [done|]. split; [done|].
  exact (main_only_exits 100 100 elements _ Hiter Hwin).
Defined.

(** ** Clicks and keys *)



Lemma square_ref_update_alive f ref nodes row col :
  square_ref (update_alive f ref nodes) row col = square_ref nodes row col.
Proof.
  unfold square_ref, getitem, len. rewrite length_update_alive.
  destruct (list_index _ row) as [row_pos|e]; [|done]. simpl.
  unfold update_alive. rewrite list_lookup_alter.
  destruct (decide (ref.1 = row_pos)) as [<-|_]; [|done].
  destruct (nodes !! ref.1) as [square_row|]; [|done]. simpl.
  by rewrite length_alter.
Qed.

(** X16.  While the algorithm is stopped, clicking the same pixel twice
    restores the board: a click toggles one square and nothing else. *)
Theorem double_click_restores W H p GLOBALS nodes square :
  GLOBALS !! "RunAlg" = Some false →
  find_clicked_square p nodes = Done square →
  check_input W H [MOUSEBUTTONDOWN p; MOUSEBUTTONDOWN p] (GLOBALS, nodes)
    = Done (GLOBALS, nodes).
Proof.
  intros Hrun Hfind. unfold check_input. simpl.
  rewrite (read_global_Some _ _ _ Hrun). simpl. rewrite Hfind. simpl.
  rewrite (read_global_Some _ _ _ Hrun). simpl.
  assert (find_clicked_square p (update_alive negb square nodes) = Done square)
    as ->.
  { destruct p as [x y]. unfold find_clicked_square in *.
    by rewrite square_ref_update_alive. }
  simpl. by rewrite update_alive_involutive.
Qed.

Lemma double_click_restores_witness :
  initial_GLOBALS !! "RunAlg" = Some false ∧
  find_clicked_square (31, 2) (grid 44 30) = Done (0, 2)%nat ∧
  check_input 44 30 [MOUSEBUTTONDOWN (31, 2); MOUSEBUTTONDOWN (31, 2)]
    (initial_GLOBALS, grid 44 30) = Done (initial_GLOBALS, grid 44 30).
Proof.
  assert (initial_GLOBALS !! "RunAlg" = Some false) as Hrun by reflexivity.
  assert (find_clicked_square (31, 2) (grid 44 30) = Done (0, 2)%nat) as Hfind
    by (vm_compute; reflexivity).
  split_and!; [done..|].
  exact (double_click_restores 44 30 (31, 2) _ _ _ Hrun Hfind).
Defined.

(** X17.  RETURN starts a stopped run and stops a running one, leaving the
    board as it is.  BACKSPACE stops a running one too, and only when the
    run is stopped does it replace the board by a fresh, empty one. *)
Theorem key_press W H GLOBALS nodes (running : bool) :
  GLOBALS !! "RunAlg" = Some running →
  check_input W H [KEYDOWN K_RETURN] (GLOBALS, nodes)
    = Done (<["RunAlg" := negb running]> GLOBALS, nodes) ∧
  check_input W H [KEYDOWN K_BACKSPACE] (GLOBALS, nodes)
    = Done (if running then (<["RunAlg" := false]> GLOBALS, nodes)
            else (<["isFinished" := false]> GLOBALS, grid W H)).
Proof.
  intros Hrun. unfold check_input. simpl.
  rewrite (read_global_Some _ _ _ Hrun). simpl.
  destruct running; simpl; [done|].
  unfold reset. by rewrite set_squares_grid.
Qed.

Lemma key_press_witness :
  initial_GLOBALS !! "RunAlg" = Some false ∧
  check_input 30 30 [KEYDOWN K_RETURN] (initial_GLOBALS, clear (grid 30 30))
    = Done (<["RunAlg" := negb false]> initial_GLOBALS, clear (grid 30 30)) ∧
  check_input 30 30 [KEYDOWN K_BACKSPACE] (initial_GLOBALS, clear (grid 30 30))
    = Done (if false then (<["RunAlg" := false]> initial_GLOBALS, clear (grid 30 30))
            else (<["isFinished" := false]> initial_GLOBALS, grid 30 30)).
Proof.
  assert (initial_GLOBALS !! "RunAlg" = Some false) as Hrun by reflexivity.
  split; [done|].
  exact (key_press 30 30 initial_GLOBALS (clear (grid 30 30)) false Hrun).
Defined.

Lemma elem_of_live_on_grid W H nodes c :
  on_grid W H nodes →
  c ∈ (live_node_indexes nodes).1 ↔
  (0 ≤ c.1 ∧ 0 ≤ c.2) ∧
  alive <$> square_at nodes (Z.to_nat c.2) (Z.to_nat c.1) = Some true.
Proof.
  intros Hgrid. rewrite elem_of_live_node_indexes. split.
  - intros (row & col & square & Hat & Halive & ->).
    rewrite (on_grid_index_of W H nodes row col square Hgrid Hat). simpl.
    rewrite !Nat2Z.id, Hat. simpl. rewrite Halive. split; [lia|done].
  - destruct c as [x y]. simpl. intros [[? ?] Halive].
    destruct (square_at nodes _ _) as [square|] eqn:Hat; [|done].
    exists (Z.to_nat y), (Z.to_nat x), square.
    rewrite (on_grid_index_of W H nodes _ _ square Hgrid Hat).
    rewrite !Z2Nat.id by lia. by injection Halive as ->.
Qed.

(** X18.  While the algorithm is stopped, a click at pixel [(x, y)] of the
    window toggles cell [(x // 15, y // 15)] of the set that
    [live_node_indexes] reads next, and no other cell. *)
Theorem click_toggles_cell W H GLOBALS nodes x y :
  GLOBALS !! "RunAlg" = Some false →
  on_grid W H nodes → 0 ≤ x ≤ W → 0 ≤ y ≤ H →
  ∃ nodes',
    check_input W H [MOUSEBUTTONDOWN (x, y)] (GLOBALS, nodes)
      = Done (GLOBALS, nodes') ∧
    on_grid W H nodes' ∧
    ∀ c, c ∈ (live_node_indexes nodes').1 ↔
      (c ∈ (live_node_indexes nodes).1 ↔
       c ≠ (x / SQUARE_SIDE_LENGTH, y / SQUARE_SIDE_LENGTH)).
Proof.
  intros Hrun Hgrid Hx Hy. unfold check_input. simpl.
  rewrite (read_global_Some _ _ _ Hrun). simpl.
  rewrite (find_clicked_square_in_window W H) by done. simpl.
  eexists. split; [done|].
  pose proof (on_grid_update_alive W H negb
                (Z.to_nat (y / SQUARE_SIDE_LENGTH), Z.to_nat (x / SQUARE_SIDE_LENGTH))
                nodes Hgrid) as Hgrid'.
  split; [done|]. intros c.
  rewrite (elem_of_live_on_grid W H _ c Hgrid'),
    (elem_of_live_on_grid W H nodes c Hgrid).
  rewrite square_at_update_alive. simpl.
  assert (0 ≤ x / SQUARE_SIDE_LENGTH ∧ 0 ≤ y / SQUARE_SIDE_LENGTH) as [? ?]
    by (unfold SQUARE_SIDE_LENGTH; split; apply Z.div_pos; lia).
  destruct c as [cx cy]. simpl.
  destruct (decide ((cx, cy) = (x / SQUARE_SIDE_LENGTH, y / SQUARE_SIDE_LENGTH)))
    as [[= -> ->]|Hne].
  - destruct (on_grid_is_Some W H nodes (Z.to_nat (y / SQUARE_SIDE_LENGTH))
                (Z.to_nat (x / SQUARE_SIDE_LENGTH)) Hgrid) as [square ->].
    { rewrite Z2Nat.id by lia. unfold SQUARE_SIDE_LENGTH.
      pose proof (Z.div_mod y 15). pose proof (Z.mod_pos_bound y 15). lia. }
    { rewrite Z2Nat.id by lia. unfold SQUARE_SIDE_LENGTH.
      pose proof (Z.div_mod x 15). pose proof (Z.mod_pos_bound x 15). lia. }
    simpl. rewrite decide_True by done. simpl.
    assert (Some false ≠ Some true) by done.
    assert (Some true = Some true) by done.
    destruct (alive square); simpl; tauto.
  - destruct (decide (0 ≤ cx ∧ 0 ≤ cy)) as [[??]|Hneg]; [|tauto].
    assert (@None bool ≠ Some true) by done.
    destruct (square_at nodes _ _) as [square|]; simpl; [|tauto].
    rewrite decide_False; [tauto|].
    intros [Hr Hc]. apply Hne. f_equal; lia.
Qed.

Lemma click_toggles_cell_witness :
  initial_GLOBALS !! "RunAlg" = Some false ∧
  on_grid 44 30 (grid 44 30) ∧ 0 ≤ 31 ≤ 44 ∧ 0 ≤ 2 ≤ 30 ∧
  ∃ nodes',
    check_input 44 30 [MOUSEBUTTONDOWN (31, 2)] (initial_GLOBALS, grid 44 30)
      = Done (initial_GLOBALS, nodes') ∧
    on_grid 44 30 nodes' ∧
    ∀ c, c ∈ (live_node_indexes nodes').1 ↔
      (c ∈ (live_node_indexes (grid 44 30)).1 ↔
       c ≠ (31 / SQUARE_SIDE_LENGTH, 2 / SQUARE_SIDE_LENGTH)).
Proof.
  assert (initial_GLOBALS !! "RunAlg" = Some false) as Hrun by reflexivity.
  assert (on_grid 44 30 (grid 44 30)) as Hgrid by (vm_compute; reflexivity).
  split_and!; [done|done|lia..|].
  apply (click_toggles_cell 44 30 initial_GLOBALS (grid 44 30) 31 2 Hrun Hgrid); lia.
Defined.

(** ** A run at the edge of the window *)

(** On the plane the blinker oscillates; in the top row of the board its
    upper cell has no square, so two cells remain after one update and
    none after two. *)
Example blinker_at_the_edge :
  let nodes :=
    update_alive negb (0, 2)%nat
      (update_alive negb (0, 1)%nat (update_alive negb (0, 0)%nat (grid 60 60))) in
  (live_node_indexes nodes).1 = blinker_h ∧
  (nodes ← advance elements nodes; Done (live_node_indexes nodes).1)
    = Done {[ (1, 0); (1, 1) ]} ∧
  (nodes ← advance elements nodes; nodes ← advance elements nodes;
   Done (live_node_indexes nodes).1) = Done ∅.
Proof. by vm_compute. Qed.
